(** * tripforce: a shallow embedding of [tripforce.c] and its specification

    The development follows the layout of the C file: query validation,
    the reentrant generator, the rate tracker, the rate formatter, the
    tripcode routines (password, salt, search) and the start-up and
    shutdown logic of [main].  Definitions come first, one module per
    group of C functions; the theorems about them follow.

    Conventions.
    - [unsigned] is 32 bits wide: arithmetic on it is written in [Z] with
      the reduction modulo [2^32] spelled out.
    - A [char] is one byte ([ascii]).  Whether plain [char] is signed is
      left to the platform by C, so every function that compares or adds
      characters takes the signedness [sgn] as a parameter and the
      theorems hold for both choices.
    - A C string is the [string] of the bytes before its terminator; a
      possibly null [char *] is an [option string].
    - [float] is IEEE-754 binary32 and [double] binary64, rounding to
      nearest even, expressions evaluated in their own type. *)

From Stdlib Require Import ZArith List Bool Ascii String Lia.
From Stdlib Require Import QArith Qround.
From Stdlib Require Import Floats.SpecFloat.
Import ListNotations.

Local Open Scope Z_scope.

(** ** C integers and characters *)

Module C.

Definition UINT_WIDTH : Z := 32.

(** Conversion to [unsigned]: reduction modulo [2^32]. *)
Definition to_unsigned (z : Z) : Z := z mod 2 ^ UINT_WIDTH.

(** The byte of a character, [0 .. 255]. *)
Definition code (c : ascii) : Z := Z.of_N (N_of_ascii c).

(** The value of a [char] object once promoted to [int]: the byte itself
    when [char] is unsigned, its two's complement reading when signed. *)
Definition cval (sgn : bool) (c : ascii) : Z :=
  if sgn && (128 <=? code c) then code c - 256 else code c.

(** Conversion of an [int] back to [char] (what an assignment to a
    [char] object stores). *)
Definition to_char (z : Z) : ascii := ascii_of_N (Z.to_N (z mod 256)).

(** A character constant such as ['.'] is an [int] holding the
    character's code. *)
Definition lit (c : ascii) : Z := code c.

(** [strlen] assigned to an [unsigned]. *)
Definition strlen (s : string) : Z :=
  to_unsigned (Z.of_nat (String.length s)).

(** [s[i]] for a string: the terminator is read at index [strlen s]. *)
Definition char_at (s : string) (i : nat) : ascii :=
  match String.get i s with
  | Some c => c
  | None => zero
  end.

End C.

(** ** Query validation ([validate_query]) *)

Module Query.
Import C.

Definition ERROR_NO_QUERY : string :=
  "You didn't provide a query string.".
Definition ERROR_QUERY_LENGTH : string :=
  "Tripcodes cannot be longer than 10 characters.".
Definition ERROR_QUERY_INVALID : string :=
  "Tripcodes can only contain the characters ./0-9A-Za-z".
Definition ERROR_QUERY_TENTH_CHAR : string :=
  "10th character can only be one of these characters: '.26AEIMQUYcgkosw'".

Definition QUERY_MAX_LENGTH : Z := 10.
Definition TENTH_CHAR_CANDIDATES : nat := 16.
Definition tenth_char : string := ".26AEIMQUYcgkosw".

(** The test inside the character loop, without its negation. *)
Definition in_range (sgn : bool) (c : ascii) : bool :=
  let v := cval sgn c in
  ((lit "." <=? v) && (v <=? lit "9"))
  || ((lit "A" <=? v) && (v <=? lit "Z"))
  || ((lit "a" <=? v) && (v <=? lit "z")).

(** [for (i = 0; i < len; i++)] over the characters: [true] when the
    loop runs to its end, [false] when it returns early. *)
Fixpoint range_loop (sgn : bool) (query : string) (i : nat) (n : nat)
  : bool :=
  match n with
  | O => true
  | S n' =>
      if in_range sgn (char_at query i)
      then range_loop sgn query (S i) n'
      else false
  end.

(** The loop over the sixteen candidates; it does not stop at the first
    hit, it only raises [match_found]. *)
Fixpoint tenth_loop (last : ascii) (i : nat) (n : nat) (match_found : bool)
  : bool :=
  match n with
  | O => match_found
  | S n' =>
      tenth_loop last (S i) n'
        (if Ascii.eqb last (char_at tenth_char i) then true
         else match_found)
  end.

(** The result of a call: the returned [int] and what was written to the
    error stream. *)
Definition validate_query (sgn : bool) (query : option string)
  : Z * list string :=
  match query with
  | None => (0, [ERROR_NO_QUERY])
  | Some q =>
      let len := strlen q in
      if QUERY_MAX_LENGTH <? len then (0, [ERROR_QUERY_LENGTH])
      else if negb (range_loop sgn q 0 (Z.to_nat len))
      then (0, [ERROR_QUERY_INVALID])
      else if (len =? QUERY_MAX_LENGTH)
              && negb (tenth_loop (char_at q (Z.to_nat (len - 1)))
                         0 TENTH_CHAR_CANDIDATES false)
      then (0, [ERROR_QUERY_TENTH_CHAR])
      else (1, [])
  end.

End Query.

(** ** The reentrant generator ([qrand_r]) *)

Module Prng.
Import C.

(** The seed object is replaced by [214013 * seed + 2531011] in
    [unsigned] arithmetic, and bits 16 to 30 of the new seed are
    returned.  The pair is the returned [int] and the new seed. *)
Definition qrand_r (seed : Z) : Z * Z :=
  let seed' := to_unsigned (214013 * seed + 2531011) in
  (Z.land (Z.shiftr seed' 16) 32767, seed').

End Prng.

(** ** Character buffers *)

Module Buf.

(** A [char] array is the list of its bytes. *)
Definition t := list ascii.

Definition get (b : t) (i : nat) : ascii := nth i b zero.

(** [b[i] = c]; a store past the end of the array has no model here and
    leaves the list alone. *)
Fixpoint set (b : t) (i : nat) (c : ascii) : t :=
  match b, i with
  | [], _ => []
  | _ :: b', O => c :: b'
  | x :: b', S i' => x :: set b' i' c
  end.

(** The C string held in the array: the bytes before the first
    terminator. *)
Fixpoint to_string (b : t) : string :=
  match b with
  | [] => EmptyString
  | c :: b' =>
      if Ascii.eqb c zero then EmptyString else String c (to_string b')
  end.

End Buf.

(** ** Tripcode routines *)

Module Trip.
Import C.

Definition PASSWORD_LENGTH : nat := 8.
Definition SALT_LENGTH : nat := 4.
Definition TABLE_SIZE : Z := 92.

(** The table of [generate_password]; the third character is the double
    quote (code 34). *)
Definition lookup : string :=
  (" !" ++ String "034" "$%&'()*+,-./0123456789:;<=>?"
   ++ "@ABCDEFGHIJKLMNOPQRSTUVWXYZ[]^_`abcdefghijklmnopqrstuvwxyz{|}")%string.

(** The loop of [generate_password]: [n] positions still to fill, the
    next one being [i]. *)
Fixpoint password_loop (password : Buf.t) (seed : Z) (i n : nat)
  : Buf.t * Z :=
  match n with
  | O => (password, seed)
  | S n' =>
      let (r, seed') := Prng.qrand_r seed in
      password_loop
        (Buf.set password i (char_at lookup (Z.to_nat (Z.rem r TABLE_SIZE))))
        seed' (S i) n'
  end.

(** [password] is the caller's array of [PASSWORD_LENGTH + 1] bytes; the
    result is the array and the seed after the call. *)
Definition generate_password (password : Buf.t) (seed : Z) : Buf.t * Z :=
  let (password', seed') := password_loop password seed 0 PASSWORD_LENGTH in
  (Buf.set password' PASSWORD_LENGTH zero, seed').

(** What [malloc] hands to the loop body: arrays whose contents are not
    known.  Any contents do; this one is used to run examples. *)
Definition fresh (n : nat) : Buf.t := repeat "?"%char n.

Definition generate_salt (password : Buf.t) (salt : Buf.t) : Buf.t :=
  let salt := Buf.set salt 0 (Buf.get password 1) in
  let salt := Buf.set salt 1 (Buf.get password 2) in
  let salt := Buf.set salt 2 "H"%char in
  let salt := Buf.set salt 3 "."%char in
  Buf.set salt 4 zero.

Fixpoint strip_loop (sgn : bool) (salt : Buf.t) (i n : nat) : Buf.t :=
  match n with
  | O => salt
  | S n' =>
      let v := cval sgn (Buf.get salt i) in
      strip_loop sgn
        (if (v <? lit ".") || (lit "z" <? v)
         then Buf.set salt i "."%char else salt)
        (S i) n'
  end.

Definition strip_outliers (sgn : bool) (salt : Buf.t) : Buf.t :=
  strip_loop sgn salt 0 SALT_LENGTH.

Fixpoint punct_loop (sgn : bool) (salt : Buf.t) (i n : nat) : Buf.t :=
  match n with
  | O => salt
  | S n' =>
      let v := cval sgn (Buf.get salt i) in
      punct_loop sgn
        (if (lit ":" <=? v) && (v <=? lit "@")
         then Buf.set salt i (to_char (v + 6))
         else if (lit "[" <=? v) && (v <=? lit "`")
         then Buf.set salt i (to_char (v + 6))
         else salt)
        (S i) n'
  end.

Definition replace_punctuation (sgn : bool) (salt : Buf.t) : Buf.t :=
  punct_loop sgn salt 0 SALT_LENGTH.

(** The three calls of the worker loop that produce the salt handed to
    [DES_fcrypt]. *)
Definition derive_salt (sgn : bool) (password : Buf.t) : Buf.t :=
  replace_punctuation sgn
    (strip_outliers sgn (generate_salt password (fresh (SALT_LENGTH + 1)))).

(** *** Case-agnostic search ([strcasestr]) *)

(** The body of the inner loop for one [j]: the two characters after the
    two [+=] statements. *)
Definition fold_pair (sgn : bool) (h n : ascii) : ascii * ascii :=
  let is_upper (c : ascii) :=
    (lit "A" <=? cval sgn c) && (cval sgn c <=? lit "Z") in
  let h := to_char (cval sgn h + (if is_upper h then 32 else 0)) in
  let n := to_char (cval sgn n + (if is_upper h then 32 else 0)) in
  (h, n).

(** The inner loop: [k] values of [j] still to visit; the result is
    [matches] when the loop ends or breaks. *)
Fixpoint inner_loop (sgn : bool) (haystack needle : string)
  (len_h len_n i : Z) (j : Z) (k : nat) (matches : Z) : Z :=
  match k with
  | O => matches
  | S k' =>
      if to_unsigned (i + len_n) <=? len_h then
        let (h, n) :=
          fold_pair sgn
            (char_at haystack (Z.to_nat (to_unsigned (i + j))))
            (char_at needle (Z.to_nat j)) in
        inner_loop sgn haystack needle len_h len_n i (j + 1) k'
          (if cval sgn h =? cval sgn n then to_unsigned (matches + 1)
           else matches)
      else matches
  end.

(** The outer loop: [k] values of [i] still to visit.  [Some i] is the
    pointer [haystack + i], [None] the null pointer. *)
Fixpoint outer_loop (sgn : bool) (haystack needle : string)
  (len_h len_n : Z) (i : Z) (k : nat) : option Z :=
  match k with
  | O => None
  | S k' =>
      let matches :=
        inner_loop sgn haystack needle len_h len_n i 0 (Z.to_nat len_n) 0 in
      if matches =? len_n then Some i
      else outer_loop sgn haystack needle len_h len_n (i + 1) k'
  end.

Definition strcasestr (sgn : bool) (haystack needle : string) : option Z :=
  let len_h := strlen haystack in
  let len_n := strlen needle in
  outer_loop sgn haystack needle len_h len_n 0 (Z.to_nat len_h).

End Trip.

(** ** The rate tracker ([trip_frequency]) *)

Module Rate.

Inductive avg_stats := COUNT_ONLY | FETCH_DATA.

(** The three [static] locals of [trip_frequency]. *)
Record tracker := {
  current_tally : Z;
  average : Z;
  time_at_last_call : Z
}.

(** Their initialisers. *)
Definition initial : tracker :=
  {| current_tally := 0; average := 0; time_at_last_call := 0 |}.

(** [(average / 2.0) + (current_tally / 2.0)] stored into the
    [unsigned average].  Both operands are below [2^32], so the two
    halves and their sum are multiples of one half below [2^32]: binary64
    holds each of them exactly, and the rational expression is the
    [double] one.  The store converts by discarding the fraction. *)
Definition blend (average current_tally : Z) : Z :=
  Qfloor (inject_Z average / 2 + inject_Z current_tally / 2)%Q.

(** The same expression computed operation by operation in binary64
    (53 bits of precision, infinities at exponent 1024), with the final
    conversion to [unsigned]; it is run against [blend] on sample
    operands. *)
Definition double_of_Z (z : Z) : spec_float :=
  binary_normalize 53 1024 z 0 false.

Definition unsigned_of_double (f : spec_float) : Z :=
  match f with
  | S754_finite s m e =>
      let a := if s then Z.neg m else Z.pos m in
      if 0 <=? e then a * 2 ^ e else Z.quot a (2 ^ (- e))
  | _ => 0
  end.

Definition blend_binary64 (average current_tally : Z) : Z :=
  unsigned_of_double
    (SFadd 53 1024
       (SFdiv 53 1024 (double_of_Z average) (double_of_Z 2))
       (SFdiv 53 1024 (double_of_Z current_tally) (double_of_Z 2))).

(** One call.  [current_time] is what [time(NULL)] returned; the result
    is the returned [unsigned] and the locals after the call. *)
Definition trip_frequency (mode : avg_stats) (current_time : Z)
  (st : tracker) : Z * tracker :=
  match mode with
  | FETCH_DATA =>
      (if negb (average st =? 0) then average st else current_tally st, st)
  | COUNT_ONLY =>
      if negb (current_time =? time_at_last_call st) then
        (0, {| current_tally := 1;
               average := blend (average st) (current_tally st);
               time_at_last_call := current_time |})
      else
        (0, {| current_tally := C.to_unsigned (current_tally st + 1);
               average := average st;
               time_at_last_call := current_time |})
  end.

(** [n] calls in mode [COUNT_ONLY] that all see the clock at [t]. *)
Fixpoint count_calls (t : Z) (n : nat) (st : tracker) : tracker :=
  match n with
  | O => st
  | S n' => count_calls t n' (snd (trip_frequency COUNT_ONLY t st))
  end.

End Rate.

(** ** The rate formatter ([trip_rate_condense]) *)

Module Condense.

(** binary32: 24 bits of precision, infinities at exponent 128. *)
Definition prec : Z := 24.
Definition emax : Z := 128.

(** Conversion of an integer to [float]. *)
Definition of_Z (z : Z) : spec_float := binary_normalize prec emax z 0 false.
Definition fmul := SFmul prec emax.
Definition fdiv := SFdiv prec emax.

Definition K_TRIP : spec_float := of_Z 1000.
Definition MAGS : nat := 5.

Definition trip_prefix : list ascii :=
  [zero; "k"%char; "m"%char; "g"%char; "t"%char].

Definition trip_magnitude : list spec_float :=
  [ S754_zero false;
    K_TRIP;
    fmul K_TRIP K_TRIP;
    fmul (fmul K_TRIP K_TRIP) K_TRIP;
    fmul (fmul (fmul K_TRIP K_TRIP) K_TRIP) K_TRIP ].

Definition magnitude (i : nat) : spec_float := nth i trip_magnitude S754_nan.

(** The loop: [n] values of [i] still to visit.  The result is the
    returned [float] and the contents of [*prefix] after the call. *)
Fixpoint condense_loop (rate : Z) (prefix : ascii) (i n : nat)
  : spec_float * ascii :=
  match n with
  | O => (of_Z rate, prefix)
  | S n' =>
      if SFltb (of_Z rate) (magnitude i) && negb (Nat.eqb i 0)
      then (fdiv (of_Z rate) (magnitude (i - 1)),
            nth (i - 1) trip_prefix zero)
      else condense_loop rate prefix (S i) n'
  end.

Definition trip_rate_condense (rate : Z) (prefix : ascii)
  : spec_float * ascii :=
  condense_loop rate prefix 0 MAGS.

(** What the two reporters print after ["@ "] (or after
    ["Final average rate: "]): the raw counter with [%u], or the
    condensed value with [%.2f] followed by the prefix. *)
Inductive rate_text :=
| Raw (avg_rate : Z)
| Scaled (avg_float : spec_float) (prefix : ascii).

Definition report (avg_rate : Z) : rate_text :=
  let (avg_float, prefix) := trip_rate_condense avg_rate zero in
  if Ascii.eqb prefix zero then Raw avg_rate else Scaled avg_float prefix.

(** The number a finite [float] stands for, in lowest terms. *)
Definition value (f : spec_float) : option Q :=
match f with
| S754_zero _ => Some 0%Q
| S754_finite s m e =>
    let a := if s then Z.neg m else Z.pos m in
    Some (Qred (if 0 <=? e then inject_Z (a * 2 ^ e)
                else (a # Z.to_pos (2 ^ (- e)))))
| _ => None
end.

End Condense.

(** ** [main]: argument handling, the worker pool and the interrupt *)

Module Program.

(** [pmode_t]; the value doubles as the index into [argv]. *)
Inductive pmode := HELP_MSG | NO_QUERY_MODE | CASE_SENSITIVE | CASE_AGNOSTIC.

Definition mode_index (mode : pmode) : Z :=
  match mode with
  | HELP_MSG => -1
  | NO_QUERY_MODE => 0
  | CASE_SENSITIVE => 1
  | CASE_AGNOSTIC => 2
  end.

(** [argv[i]] for [0 <= i <= argc]: the list holds [argv[0]] to
    [argv[argc - 1]], and [argv[argc]] is the null pointer. *)
Definition arg (argv : list string) (i : Z) : option string :=
  nth_error argv (Z.to_nat i).

(** How the first [if] chain of [main] ends. *)
Inductive startup :=
| Exit (status : Z) (err : list string)
| Proceed (mode : pmode).

(** Lines 447 to 459.  [None] stands for the call with [argc = 0], where
    [argv[1]] is read outside the array. *)
Definition parse_args (sgn : bool) (argv : list string) : option startup :=
  if (Z.of_nat (List.length argv) =? 1) then Some (Proceed NO_QUERY_MODE)
  else
    match arg argv 1 with
    | None => None
    | Some a1 =>
        if String.eqb a1 "-h" then Some (Exit 1 [])
        else
          let mode :=
            if String.eqb a1 "-i" then CASE_AGNOSTIC else CASE_SENSITIVE in
          let (ok, err) :=
            Query.validate_query sgn (arg argv (mode_index mode)) in
          if ok =? 0 then Some (Exit 1 err) else Some (Proceed mode)
    end.

(** Where [main] stands. *)
Inductive main_pc :=
| AtArgs          (* before line 447 *)
| AtRunState      (* before [run_state = 1], line 461 *)
| AtSignal        (* lines 462 to 468, up to the call of [signal] *)
| InPool          (* the parallel region, lines 470 to 503 *)
| AtSummary       (* lines 504 to 520 *)
| Exited (status : Z)
| Killed.         (* ended by the default action of the interrupt *)

(** Where a worker of the parallel region stands. *)
Inductive worker_pc :=
| LoopTop         (* about to evaluate [while (run_state)] *)
| InBody          (* lines 485 to 501 *)
| Done.

Record state := {
  pc : main_pc;
  run_state : Z;                 (* the [static volatile int] *)
  handler : bool;                (* [sigint_stop] is installed *)
  mode : pmode;
  workers : list worker_pc       (* empty outside the parallel region *)
}.

(** Program start: statics are zero, the default disposition is in
    place. *)
Definition boot : state :=
  {| pc := AtArgs; run_state := 0; handler := false;
     mode := NO_QUERY_MODE; workers := [] |}.

Definition set_worker (ws : list worker_pc) (k : nat) (w : worker_pc)
  : list worker_pc :=
  firstn k ws ++ w :: skipn (S k) ws.

(** Who takes a step. *)
Inductive actor := Main | Worker (k : nat) | Interrupt.

Section Run.
Variable sgn : bool.
Variable argv : list string.
Variable NUM_CORES : nat.

Inductive step : actor -> state -> state -> Prop :=
| step_exit1 s status err :
    pc s = AtArgs ->
    parse_args sgn argv = Some (Exit status err) ->
    step Main s
      {| pc := Exited status; run_state := run_state s;
         handler := handler s; mode := mode s; workers := workers s |}
| step_proceed s m :
    pc s = AtArgs ->
    parse_args sgn argv = Some (Proceed m) ->
    step Main s
      {| pc := AtRunState; run_state := run_state s;
         handler := handler s; mode := m; workers := workers s |}
| step_run_state s :
    pc s = AtRunState ->
    step Main s
      {| pc := AtSignal; run_state := 1;
         handler := handler s; mode := mode s; workers := workers s |}
| step_signal s :
    pc s = AtSignal ->
    step Main s
      {| pc := InPool; run_state := run_state s;
         handler := true; mode := mode s;
         workers := repeat LoopTop NUM_CORES |}
| step_check_go s k :
    pc s = InPool ->
    nth_error (workers s) k = Some LoopTop ->
    run_state s <> 0 ->
    step (Worker k) s
      {| pc := pc s; run_state := run_state s;
         handler := handler s; mode := mode s;
         workers := set_worker (workers s) k InBody |}
| step_check_stop s k :
    pc s = InPool ->
    nth_error (workers s) k = Some LoopTop ->
    run_state s = 0 ->
    step (Worker k) s
      {| pc := pc s; run_state := run_state s;
         handler := handler s; mode := mode s;
         workers := set_worker (workers s) k Done |}
| step_body s k :
    pc s = InPool ->
    nth_error (workers s) k = Some InBody ->
    step (Worker k) s
      {| pc := pc s; run_state := run_state s;
         handler := handler s; mode := mode s;
         workers := set_worker (workers s) k LoopTop |}
| step_join s :
    pc s = InPool ->
    Forall (fun w => w = Done) (workers s) ->
    step Main s
      {| pc := AtSummary; run_state := run_state s;
         handler := handler s; mode := mode s; workers := [] |}
| step_return s :
    pc s = AtSummary ->
    step Main s
      {| pc := Exited 0; run_state := run_state s;
         handler := handler s; mode := mode s; workers := workers s |}
| step_sigint_stop s :
    handler s = true ->
    (forall status, pc s <> Exited status) -> pc s <> Killed ->
    step Interrupt s
      {| pc := pc s; run_state := 0;
         handler := handler s; mode := mode s; workers := workers s |}
| step_sigint_default s :
    handler s = false ->
    (forall status, pc s <> Exited status) -> pc s <> Killed ->
    step Interrupt s
      {| pc := Killed; run_state := run_state s;
         handler := handler s; mode := mode s; workers := workers s |}.

(** Any number of steps by any actors, with the actors that took
    them. *)
Inductive steps : state -> list actor -> state -> Prop :=
| steps_nil s : steps s [] s
| steps_cons s a s' l s'' :
    step a s s' -> steps s' l s'' -> steps s (a :: l) s''.

Definition reachable (s : state) : Prop := exists l, steps boot l s.

End Run.

(** [main] is no longer ahead of the write of line 461: it is past it
    or has ended. *)
Definition started (s : state) : bool :=
  match pc s with
  | AtArgs | AtRunState => false
  | _ => true
  end.

(** The turns worker [k] takes in a run. *)
Fixpoint turns (k : nat) (l : list actor) : nat :=
  match l with
  | [] => 0
  | Worker k' :: l' => (if Nat.eqb k' k then 1 else 0) + turns k l'
  | _ :: l' => turns k l'
  end.

(** The turns worker [k] has left once [run_state] is zero: from inside
    the body it returns to the loop top, from the loop top it leaves the
    loop. *)
Definition remaining_turns (s : state) (k : nat) : nat :=
  match nth_error (workers s) k with
  | Some InBody => 2
  | Some LoopTop => 1
  | _ => 0
  end.

End Program.

(** ** The specification's vocabulary *)

Module Spec.

(** The alphabet of [DES_fcrypt] and of tripcodes, [./0-9A-Za-z], written
    out. *)
Definition alphabet : list ascii :=
  list_ascii_of_string
    "./0123456789ABCDEFGHIJKLMNOPQRSTUVWXYZabcdefghijklmnopqrstuvwxyz".

(** The characters a tripcode can end with. *)
Definition tenth_alphabet : list ascii :=
  list_ascii_of_string ".26AEIMQUYcgkosw".

Definition memb (c : ascii) (l : list ascii) : bool :=
  existsb (Ascii.eqb c) l.

(** What the specification asks of a query. *)
Definition acceptable (q : string) : Prop :=
  (forall i c, String.get i q = Some c -> In c alphabet)
  /\ (String.length q <= 10)%nat
  /\ (String.length q = 10%nat ->
      exists c, String.get 9 q = Some c /\ In c tenth_alphabet).

(** The range clamp and the punctuation shift of the salt, read one
    character at a time. *)
Definition clamp (sgn : bool) (c : ascii) : ascii :=
  if (C.cval sgn c <? C.lit ".") || (C.lit "z" <? C.cval sgn c)
  then "."%char else c.

Definition shift (sgn : bool) (c : ascii) : ascii :=
  if (C.lit ":" <=? C.cval sgn c) && (C.cval sgn c <=? C.lit "@")
  then C.to_char (C.cval sgn c + 6)
  else if (C.lit "[" <=? C.cval sgn c) && (C.cval sgn c <=? C.lit "`")
  then C.to_char (C.cval sgn c + 6)
  else c.

(** The generator's successive returns from a seed, and the seed they
    leave. *)
Fixpoint draws (seed : Z) (n : nat) : list Z :=
  match n with
  | O => []
  | S n' => fst (Prng.qrand_r seed) :: draws (snd (Prng.qrand_r seed)) n'
  end.

Fixpoint seed_after (seed : Z) (n : nat) : Z :=
  match n with
  | O => seed
  | S n' => seed_after (snd (Prng.qrand_r seed)) n'
  end.

(** The table entry a draw selects, and the table as a list. *)
Definition pick (r : Z) : ascii :=
  C.char_at Trip.lookup (Z.to_nat (Z.rem r Trip.TABLE_SIZE)).

Definition lookup_chars : list ascii := list_ascii_of_string Trip.lookup.

(** ASCII case mapping of a string. *)
Definition toupper (c : ascii) : ascii :=
  if (C.lit "a" <=? C.code c) && (C.code c <=? C.lit "z")
  then C.to_char (C.code c - 32) else c.

Definition tolower (c : ascii) : ascii :=
  if (C.lit "A" <=? C.code c) && (C.code c <=? C.lit "Z")
  then C.to_char (C.code c + 32) else c.

Fixpoint map_string (f : ascii -> ascii) (s : string) : string :=
  match s with
  | EmptyString => EmptyString
  | String c s' => String (f c) (map_string f s')
  end.

Definition uppercase : string -> string := map_string toupper.
Definition lowercase : string -> string := map_string tolower.

Definition is_letter (c : ascii) : bool :=
  ((C.lit "A" <=? C.code c) && (C.code c <=? C.lit "Z"))
  || ((C.lit "a" <=? C.code c) && (C.code c <=? C.lit "z")).

Fixpoint letters_only (s : string) : bool :=
  match s with
  | EmptyString => true
  | String c s' => is_letter c && letters_only s'
  end.

(** The finite binary32 number of significand [m] and exponent [e] is a
    nearest one to the integer [rate], the even one on a tie: the
    significand has 24 bits, a [rate] of at most 24 bits is held exactly,
    and a longer one is off by at most half a unit of the last place. *)
Definition nearest_even (rate : Z) (m : positive) (e : Z) : Prop :=
  2 ^ 23 <= Z.pos m < 2 ^ 24
  /\ -23 <= e <= 9
  /\ (rate < 2 ^ 24 -> e <= 0)
  /\ (e <= 0 -> Z.pos m = rate * 2 ^ (- e))
  /\ (0 < e ->
      2 * Z.abs (Z.pos m * 2 ^ e - rate) <= 2 ^ e
      /\ (2 * Z.abs (Z.pos m * 2 ^ e - rate) = 2 ^ e ->
          Z.even (Z.pos m) = true)).

(** The index into [trip_prefix] and [trip_magnitude] that the formatter
    settles on. *)
Definition scale (rate : Z) : nat :=
  if rate <? 1000 then 0
  else if rate <? 1000000 then 1
  else if rate <? 999999968 then 2
  else 3.

End Spec.

(** ** The seed source ([seed_qrand], [qrand], [seed_qrand_r]) *)

Module Seeds.
Import C.

(** Code that reads and writes the file-scope [QRAND_SEED]: a function
    from the seed before to a result and the seed after. *)
Definition M (A : Type) : Type := Z -> A * Z.

Definition ret {A : Type} (a : A) : M A := fun s => (a, s).

Definition bind {A B : Type} (m : M A) (f : A -> M B) : M B :=
  fun s => let (a, s') := m s in f a s'.

(** [seed_qrand]: the argument is converted to [unsigned] and stored. *)
Definition seed_qrand (seed : Z) : M unit :=
  fun _ => (tt, to_unsigned seed).

(** [qrand]: the step of [qrand_r], on the file-scope seed. *)
Definition qrand : M Z :=
  fun QRAND_SEED =>
    let QRAND_SEED' := to_unsigned (214013 * QRAND_SEED + 2531011) in
    (Z.land (Z.shiftr QRAND_SEED' 16) 32767, QRAND_SEED').

(** [while (!random_value) random_value = qrand();] with [random_value]
    zero on entry.  The loop has no bound of its own; [fuel] is the number
    of calls allowed, and [None] means they were used up. *)
Fixpoint draw_nonzero (fuel : nat) : Z -> option (Z * Z) :=
  fun s =>
    match fuel with
    | O => None
    | S fuel' =>
        let (random_value, s') := qrand s in
        if random_value =? 0 then draw_nonzero fuel' s'
        else Some (random_value, s')
    end.

(** [while (j++ != random_value) qrand();] with [j] zero on entry and
    [random_value] positive: [n] calls whose results are dropped. *)
Fixpoint skip (n : nat) : M unit :=
  match n with
  | O => ret tt
  | S n' => bind qrand (fun _ => skip n')
  end.

(** The body of the [for] loop: the seed stored into [seeds[i]]. *)
Definition next_seed (fuel : nat) : Z -> option (Z * Z) :=
  fun s =>
    match draw_nonzero fuel s with
    | None => None
    | Some (random_value, s1) =>
        let (_, s2) := skip (Z.to_nat random_value) s1 in
        Some (qrand s2)
    end.

(** [seed_qrand_r]: the [num] entries written to [seeds], in order, and
    the file-scope seed left behind. *)
Fixpoint seed_qrand_r (fuel : nat) (num : nat) : Z -> option (list Z * Z) :=
  fun s =>
    match num with
    | O => Some ([], s)
    | S num' =>
        match next_seed fuel s with
        | None => None
        | Some (seed, s') =>
            match seed_qrand_r fuel num' s' with
            | None => None
            | Some (seeds, s'') => Some (seed :: seeds, s'')
            end
        end
    end.

End Seeds.

(** ** The tripcode ([truncate_tripcode]) and the test ([determine_match]) *)

Module Digest.

Definition DES_FCRYPT_LENGTH : nat := 14.
Definition TRIPCODE_LENGTH : nat := 10.
Definition HASH_OFFSET : nat := 3.

(** [memmove(b + dst, b + src, n)] inside one array: the [n] bytes from
    [src] on are read first and then stored from [dst] on, so an overlap
    does no harm.  The ranges lie inside the array. *)
Definition memmove (b : Buf.t) (dst src n : nat) : Buf.t :=
  firstn dst b ++ firstn n (skipn src b) ++ skipn (dst + n) b.

Definition truncate_tripcode (hash : Buf.t) : Buf.t :=
  Buf.set (memmove hash 0 HASH_OFFSET TRIPCODE_LENGTH) TRIPCODE_LENGTH zero.

End Digest.

Module Worker.
Import Program.

(** One line of a reporter: the tripcode after ['!'], the password cut
    to 8 characters by [%.8s], and the rate. *)
Record line := {
  line_trip : string;
  line_pass : string;
  line_rate : Condense.rate_text
}.

(** [%.8s]: at most eight characters of the string. *)
Fixpoint precision (n : nat) (s : string) : string :=
  match n, s with
  | S n', String c s' => String c (precision n' s')
  | _, _ => EmptyString
  end.

Section Externals.

(** The two library routines the loop calls.  [strstr] yields the offset
    of the pointer it returns, [None] for the null pointer; [DES_fcrypt]
    yields the 14 bytes it leaves in its third argument. *)
Variable strstr : string -> string -> option Z.
Variable DES_fcrypt : string -> string -> Buf.t.
Variable sgn : bool.

(** [determine_match]: what is printed, given the statics of
    [trip_frequency] and the clock.  The lock only brackets the two
    [fprintf] calls of one line. *)
Definition determine_match (mode : pmode) (query trip password : string)
  (current_time : Z) (st : Rate.tracker) : list line * Rate.tracker :=
  let found :=
    match mode with
    | CASE_AGNOSTIC =>
        match Trip.strcasestr sgn trip query with
        | Some _ => true
        | None => false
        end
    | CASE_SENSITIVE =>
        match strstr trip query with
        | Some _ => true
        | None => false
        end
    | NO_QUERY_MODE => false
    | HELP_MSG => false
    end in
  if found then
    let (avg_rate, st') :=
      Rate.trip_frequency Rate.FETCH_DATA current_time st in
    ([ {| line_trip := trip;
          line_pass := precision 8 password;
          line_rate := Condense.report avg_rate |} ], st')
  else ([], st).

(** What one worker owns and shares: its seed, and the statics of
    [trip_frequency]. *)
Record iter_state := {
  seed : Z;
  tracker : Rate.tracker
}.

(** Lines 485 to 501, the body of [while (run_state)].  [query] is
    [argv[mode]]; [t_match] and [t_count] are what [time(NULL)] returns in
    the two calls of [trip_frequency]. *)
Definition iteration (mode : pmode) (query : string) (t_match t_count : Z)
  (st : iter_state) : list line * iter_state :=
  let (password, seed') :=
    Trip.generate_password (Trip.fresh (Trip.PASSWORD_LENGTH + 1)) (seed st) in
  let salt := Trip.derive_salt sgn password in
  let trip :=
    Digest.truncate_tripcode
      (DES_fcrypt (Buf.to_string password) (Buf.to_string salt)) in
  let (out, tr) :=
    determine_match mode query (Buf.to_string trip) (Buf.to_string password)
      t_match (tracker st) in
  let (_, tr') := Rate.trip_frequency Rate.COUNT_ONLY t_count tr in
  (out, {| seed := seed'; tracker := tr' |}).

(** Successive iterations of one worker; each takes the two clock
    readings of its calls. *)
Fixpoint iterations (mode : pmode) (query : string) (clock : list (Z * Z))
  (st : iter_state) : list line * iter_state :=
  match clock with
  | [] => ([], st)
  | (t_match, t_count) :: clock' =>
      let (out, st') := iteration mode query t_match t_count st in
      let (out', st'') := iterations mode query clock' st' in
      (out ++ out', st'')
  end.

End Externals.

End Worker.

(** ** More vocabulary for the statements *)

Module Law.

(** [needle] is at offset [i] of [haystack], character by character. *)
Fixpoint prefix_of (needle haystack : string) : bool :=
  match needle, haystack with
  | EmptyString, _ => true
  | String a n', String b h' => Ascii.eqb a b && prefix_of n' h'
  | String _ _, EmptyString => false
  end.

(** The offset of the first occurrence of [needle] in [haystack], looked
    for at the offsets from [i] on. *)
Fixpoint find_from (needle haystack : string) (i : Z) : option Z :=
  match haystack with
  | EmptyString => None
  | String _ h' =>
      if prefix_of needle haystack then Some i
      else find_from needle h' (i + 1)
  end.

(** First occurrence in a haystack that is not empty. *)
Definition find_sub (needle haystack : string) : option Z :=
  find_from needle haystack 0.

(** The string without its first [i] characters. *)
Fixpoint drop (i : nat) (s : string) : string :=
  match i, s with
  | O, _ => s
  | S i', String _ s' => drop i' s'
  | S _, EmptyString => EmptyString
  end.

(** [needle], as it is, is what [haystack] holds at offset [i] once the
    capital letters of [haystack] are made small. *)
Definition occurs_at (needle haystack : string) (i : nat) : Prop :=
  (i + String.length needle <= String.length haystack)%nat
  /\ forall t, (t < String.length needle)%nat ->
               C.char_at needle t = Spec.tolower (C.char_at haystack (i + t)).

(** The string has a capital ASCII letter. *)
Fixpoint has_upper (s : string) : bool :=
  match s with
  | EmptyString => false
  | String c s' =>
      ((C.lit "A" <=? C.code c) && (C.code c <=? C.lit "Z")) || has_upper s'
  end.

(** The password that [generate_password] makes from a seed, as a
    string. *)
Definition password_of (seed : Z) : string :=
  string_of_list_ascii (map Spec.pick (Spec.draws seed 8)).

(** The tracker's counters fit an [unsigned]. *)
Definition fits (st : Rate.tracker) : Prop :=
  0 <= Rate.current_tally st < 2 ^ 32 /\ 0 <= Rate.average st < 2 ^ 32.

(** The inverse of the multiplier 214013 modulo [2^32]. *)
Definition inverse_multiplier : Z := 3115528533.

(** [P] holds of the [n] integers from [z] on. *)
Fixpoint all_from (n : nat) (z : Z) (P : Z -> bool) : bool :=
  match n with
  | O => true
  | S n' => P z && all_from n' (z + 1) P
  end.

(** From a state whose output is zero, one of the next two outputs is not
    zero. *)
Definition recovers (x : Z) : bool :=
  negb ((fst (Seeds.qrand x) =? 0)
        && (fst (Seeds.qrand (snd (Seeds.qrand x))) =? 0)).

(** The same test with the reduction modulo [2^32] done by masking, which
    evaluates faster. *)
Definition recovers_mask (x : Z) : bool :=
  let next z := Z.land (214013 * z + 2531011) 4294967295 in
  let out z := Z.land (Z.shiftr z 16) 32767 in
  negb ((out (next x) =? 0) && (out (next (next x)) =? 0)).

(** What holds of the pool and of the exits of [main] along every run. *)
Definition pool_invariant (NUM_CORES : nat) (s : Program.state) : Prop :=
  match Program.pc s with
  | Program.InPool =>
      Program.handler s = true /\ List.length (Program.workers s) = NUM_CORES
      /\ (forall k, nth_error (Program.workers s) k = Some Program.Done ->
                    Program.run_state s = 0)
  | Program.AtSummary | Program.Exited 0 =>
      Program.handler s = true
      /\ ((0 < NUM_CORES)%nat -> Program.run_state s = 0)
  | Program.Exited _ => Program.run_state s = 0 /\ Program.handler s = false
  | _ => True
  end.


End Law.

(** * Theorems *)

(** ** Characters *)

Ltac each_ascii c := destruct c as [[|] [|] [|] [|] [|] [|] [|] [|]].

Import Spec.

Lemma memb_In c l : memb c l = true <-> In c l.
Proof.
  unfold memb. rewrite existsb_exists. split.
  - intros [x [Hin Heq]]. apply Ascii.eqb_eq in Heq. now subst.
  - intros Hin. exists c. split; [assumption | apply Ascii.eqb_refl].
Qed.

Lemma char_at_get s i c :
  String.get i s = Some c -> C.char_at s i = c.
Proof. unfold C.char_at. now intros ->. Qed.

Lemma get_lt s : forall i, (i < String.length s)%nat ->
  String.get i s = Some (C.char_at s i).
Proof.
  unfold C.char_at. induction s as [|a s IH]; intros i Hi; simpl in *.
  - lia.
  - destruct i as [|i]; [reflexivity|]. apply IH. lia.
Qed.

Lemma get_some_lt s : forall i c,
  String.get i s = Some c -> (i < String.length s)%nat.
Proof.
  induction s as [|a s IH]; intros i c H; simpl in *.
  - discriminate.
  - destruct i as [|i]; [lia|]. apply IH in H. lia.
Qed.

Lemma strlen_small s :
  Z.of_nat (String.length s) < 2 ^ 32 ->
  C.strlen s = Z.of_nat (String.length s).
Proof.
  intros H. unfold C.strlen, C.to_unsigned, C.UINT_WIDTH.
  apply Z.mod_small. lia.
Qed.

(** ** Query validation *)

Section QueryFacts.
Import Query.
Variable sgn : bool.

Lemma in_range_alphabet c : in_range sgn c = memb c alphabet.
Proof. destruct sgn; each_ascii c; reflexivity. Qed.

Lemma tenth_loop_memb c :
  tenth_loop c 0 TENTH_CHAR_CANDIDATES false
  = memb c (list_ascii_of_string tenth_char).
Proof. each_ascii c; reflexivity. Qed.

Lemma range_loop_true q : forall n i,
  range_loop sgn q i n = true <->
  (forall j, (i <= j < i + n)%nat -> in_range sgn (C.char_at q j) = true).
Proof.
  induction n as [|n IH]; intros i; simpl.
  - split; [intros _ j Hj; lia | reflexivity].
  - destruct (in_range sgn (C.char_at q i)) eqn:E.
    + rewrite IH. split; intros H j Hj.
      * destruct (Nat.eq_dec j i) as [->|Hne]; [assumption|].
        apply H. lia.
      * apply H. lia.
    + split; [discriminate|]. intros H.
      rewrite <- E. apply H. lia.
Qed.

Lemma validate_query_cases q :
  fst (validate_query sgn (Some q)) = 0
  \/ fst (validate_query sgn (Some q)) = 1.
Proof.
  unfold validate_query.
  repeat match goal with
         | |- context [if ?b then _ else _] => destruct b
         end; simpl; auto.
Qed.

Lemma validate_query_accepts_iff q :
  Z.of_nat (String.length q) < 2 ^ 32 ->
  (fst (validate_query sgn (Some q)) = 1 <-> acceptable q).
Proof.
  intros Hlen. unfold validate_query, acceptable.
  rewrite tenth_loop_memb, (strlen_small q Hlen). unfold QUERY_MAX_LENGTH.
  destruct (Z.ltb_spec 10 (Z.of_nat (String.length q))) as [Hlong|Hshort].
  { cbn [fst]. split; [discriminate|]. intros (_ & H & _). lia. }
  rewrite Nat2Z.id.
  destruct (range_loop sgn q 0 (String.length q)) eqn:Hrange; cbn [negb].
  - rewrite range_loop_true in Hrange.
    assert (Hchars : forall i c, String.get i q = Some c -> In c alphabet).
    { intros i c Hget. apply memb_In. rewrite <- in_range_alphabet.
      rewrite <- (char_at_get _ _ _ Hget). apply Hrange.
      apply get_some_lt in Hget. lia. }
    destruct (Z.eqb_spec (Z.of_nat (String.length q)) 10) as [Hten|Hnot];
      cbn [andb].
    + replace (Z.to_nat (Z.of_nat (String.length q) - 1)) with 9%nat by lia.
      destruct (memb (C.char_at q 9) (list_ascii_of_string tenth_char))
        eqn:Hm; cbn [negb fst].
      * split; [intros _|reflexivity].
        split; [assumption|]. split; [lia|]. intros _.
        exists (C.char_at q 9). split; [apply get_lt; lia|].
        now apply memb_In.
      * split; [discriminate|]. intros (_ & _ & H).
        destruct H as [c [Hget Hin]]; [lia|].
        apply char_at_get in Hget. subst c.
        apply memb_In in Hin. unfold tenth_char in Hm.
        unfold tenth_alphabet in Hin. congruence.
    + cbn [fst]. split; [intros _|reflexivity].
      split; [assumption|]. split; [lia|]. intros H. lia.
  - cbn [fst]. split; [discriminate|]. intros (Hchars & _ & _).
    assert (range_loop sgn q 0 (String.length q) = true); [|congruence].
    apply range_loop_true. intros j Hj.
    rewrite in_range_alphabet. apply memb_In.
    apply (Hchars j). apply get_lt. lia.
Qed.

End QueryFacts.

(** C5.  [validate_query] returns 1 exactly for the strings over
    [./0-9A-Za-z] of length at most 10 whose tenth character, when there is
    one, is among [.26AEIMQUYcgkosw]; for every other string (a character
    outside the alphabet, more than 10 characters, or 10 characters with
    another last one) it returns 0.  The length is one an [unsigned] can
    hold. *)
Theorem validate_query_accepts_exactly (sgn : bool) (q : string) :
  Z.of_nat (String.length q) < 2 ^ 32 ->
  (acceptable q -> Query.validate_query sgn (Some q) = (1, []))
  /\ (~ acceptable q -> fst (Query.validate_query sgn (Some q)) = 0).
Proof.
  intros Hlen. pose proof (validate_query_accepts_iff sgn q Hlen) as Hiff.
  split.
  - intros Hacc. apply Hiff in Hacc. revert Hacc.
    unfold Query.validate_query.
    repeat match goal with
           | |- context [if ?b then _ else _] => destruct b
           end; simpl; intros H; try discriminate; reflexivity.
  - intros Hrej. destruct (validate_query_cases sgn q) as [H|H]; [assumption|].
    apply Hiff in H. contradiction.
Qed.

(** A query that C5 accepts and the run of [validate_query] on it. *)
Lemma validate_query_accepts_exactly_witness :
  Z.of_nat (String.length "abcdefghi.") < 2 ^ 32
  /\ Query.validate_query true (Some "abcdefghi."%string) = (1, []).
Proof.
  assert (Hlen : Z.of_nat (String.length "abcdefghi.") < 2 ^ 32)
    by (vm_compute; reflexivity).
  split; [exact Hlen|].
  apply (proj1 (validate_query_accepts_exactly true "abcdefghi." Hlen)).
  split; [|split].
  - intros i c Hget. apply memb_In.
    do 10 (destruct i as [|i];
           [injection Hget as <-; reflexivity|]).
    discriminate Hget.
  - simpl. lia.
  - intros _. exists "."%char. split; [reflexivity|].
    apply memb_In. reflexivity.
Defined.

(** ** The salt *)

Section SaltFacts.
Import C Trip.
Variable sgn : bool.

Lemma generate_salt_array password salt :
  List.length salt = 5%nat ->
  generate_salt password salt
  = [Buf.get password 1; Buf.get password 2; "H"; "."; zero]%char.
Proof.
  intros Hlen.
  destruct salt as [|s0 [|s1 [|s2 [|s3 [|s4 [|s5 salt]]]]]];
    try discriminate Hlen.
  reflexivity.
Qed.

Lemma strip_outliers_array a b c d e :
  strip_outliers sgn [a; b; c; d; e]
  = [Spec.clamp sgn a; Spec.clamp sgn b; Spec.clamp sgn c; Spec.clamp sgn d; e].
Proof.
  unfold strip_outliers, SALT_LENGTH, Spec.clamp.
  cbn [strip_loop Buf.get nth].
  destruct ((cval sgn a <? lit ".") || (lit "z" <? cval sgn a));
    cbn [strip_loop Buf.get Buf.set nth];
  destruct ((cval sgn b <? lit ".") || (lit "z" <? cval sgn b));
    cbn [strip_loop Buf.get Buf.set nth];
  destruct ((cval sgn c <? lit ".") || (lit "z" <? cval sgn c));
    cbn [strip_loop Buf.get Buf.set nth];
  destruct ((cval sgn d <? lit ".") || (lit "z" <? cval sgn d));
    reflexivity.
Qed.

Lemma replace_punctuation_array a b c d e :
  replace_punctuation sgn [a; b; c; d; e]
  = [Spec.shift sgn a; Spec.shift sgn b; Spec.shift sgn c; Spec.shift sgn d; e].
Proof.
  unfold replace_punctuation, SALT_LENGTH, Spec.shift.
  cbn [punct_loop Buf.get nth].
  destruct ((lit ":" <=? cval sgn a) && (cval sgn a <=? lit "@"));
    [|destruct ((lit "[" <=? cval sgn a) && (cval sgn a <=? lit "`"))];
    cbn [punct_loop Buf.get Buf.set nth];
  (destruct ((lit ":" <=? cval sgn b) && (cval sgn b <=? lit "@"));
    [|destruct ((lit "[" <=? cval sgn b) && (cval sgn b <=? lit "`"))]);
    cbn [punct_loop Buf.get Buf.set nth];
  (destruct ((lit ":" <=? cval sgn c) && (cval sgn c <=? lit "@"));
    [|destruct ((lit "[" <=? cval sgn c) && (cval sgn c <=? lit "`"))]);
    cbn [punct_loop Buf.get Buf.set nth];
  (destruct ((lit ":" <=? cval sgn d) && (cval sgn d <=? lit "@"));
    [|destruct ((lit "[" <=? cval sgn d) && (cval sgn d <=? lit "`"))]);
    reflexivity.
Qed.

(** The salt as a function of the two password characters it is made
    of. *)
Lemma derive_salt_array password :
  derive_salt sgn password
  = [Spec.shift sgn (Spec.clamp sgn (Buf.get password 1)); Spec.shift sgn (Spec.clamp sgn (Buf.get password 2));
     "H"; "."; zero]%char.
Proof.
  unfold derive_salt.
  rewrite generate_salt_array by reflexivity.
  rewrite strip_outliers_array, replace_punctuation_array.
  replace (Spec.shift sgn (Spec.clamp sgn "H")) with "H"%char
    by (unfold Spec.shift, Spec.clamp; destruct sgn; reflexivity).
  replace (Spec.shift sgn (Spec.clamp sgn ".")) with "."%char
    by (unfold Spec.shift, Spec.clamp; destruct sgn; reflexivity).
  reflexivity.
Qed.

Lemma sanitized_not_nul c : Ascii.eqb (Spec.shift sgn (Spec.clamp sgn c)) zero = false.
Proof. unfold Spec.shift, Spec.clamp. destruct sgn; each_ascii c; reflexivity. Qed.

(** Each sanitized character is in the alphabet or is the commercial
    at. *)
Lemma sanitized_alphabet_or_at c :
  memb (Spec.shift sgn (Spec.clamp sgn c)) ("@"%char :: alphabet) = true.
Proof. unfold Spec.shift, Spec.clamp. destruct sgn; each_ascii c; reflexivity. Qed.

(** Away from the colon, each sanitized character is in the alphabet. *)
Lemma sanitized_alphabet c :
  Ascii.eqb c ":" = false -> memb (Spec.shift sgn (Spec.clamp sgn c)) alphabet = true.
Proof.
  unfold Spec.shift, Spec.clamp.
  destruct sgn; each_ascii c; intros H; try reflexivity; discriminate H.
Qed.

End SaltFacts.

(** C10.  Whatever the password array holds, the salt left by
    [generate_salt], [strip_outliers] and [replace_punctuation] is a string
    of exactly four characters whose third and fourth are ['H'] and ['.']:
    the two passes leave the appended characters as they were. *)
Theorem salt_length_and_tail (sgn : bool) (password : Buf.t) :
  String.length (Buf.to_string (Trip.derive_salt sgn password)) = 4%nat
  /\ Buf.get (Trip.derive_salt sgn password) 2 = "H"%char
  /\ Buf.get (Trip.derive_salt sgn password) 3 = "."%char
  /\ Buf.get (Trip.derive_salt sgn password) 4 = zero.
Proof.
  rewrite derive_salt_array.
  repeat split.
  cbn [Buf.to_string].
  rewrite !sanitized_not_nul. reflexivity.
Qed.

(** C1, at the input where the code departs from it.  The password
    [=:l<egAm], which [generate_password] produces from seed 25, has a colon
    as its second character; the punctuation shift adds 6 to it and leaves a
    commercial at, which is outside [./0-9A-Za-z], as first character of the
    salt.  Seen on salts made of the seven characters from the colon to the
    commercial at, the shift yields [@ABCDEF], one short of [ABCDEFG]. *)
Theorem salt_of_colon_password (sgn : bool) :
  fst (Trip.generate_password (Trip.fresh 9) 25)
  = list_ascii_of_string "=:l<egAm" ++ [zero]
  /\ Buf.to_string
       (Trip.derive_salt sgn (list_ascii_of_string "=:l<egAm" ++ [zero]))
     = "@lH."%string
  /\ Trip.replace_punctuation sgn (list_ascii_of_string ":;<=" ++ [zero])
     = list_ascii_of_string "@ABC" ++ [zero]
  /\ Trip.replace_punctuation sgn (list_ascii_of_string ">?@." ++ [zero])
     = list_ascii_of_string "DEF." ++ [zero]
  /\ ~ In "@"%char alphabet.
Proof.
  split; [vm_compute; reflexivity|].
  split; [destruct sgn; vm_compute; reflexivity|].
  split; [destruct sgn; vm_compute; reflexivity|].
  split; [destruct sgn; vm_compute; reflexivity|].
  intros H. apply memb_In in H. discriminate H.
Qed.

(** ** The password *)

Section PasswordFacts.
Import C Trip.

Lemma set_length b : forall i c, List.length (Buf.set b i c) = List.length b.
Proof.
  induction b as [|x b IH]; intros [|i] c; simpl; auto.
Qed.

Lemma set_app b1 : forall b2 i c,
  i = List.length b1 ->
  Buf.set (b1 ++ b2) i c
  = b1 ++ match b2 with [] => [] | _ :: b2' => c :: b2' end.
Proof.
  induction b1 as [|x b1 IH]; intros b2 i c ->; simpl.
  - destruct b2; reflexivity.
  - f_equal. now apply IH.
Qed.

(** The loop writes the picks of successive draws over the positions it
    visits and leaves the rest of the array alone. *)
Lemma password_loop_spec : forall n done todo rest seed,
  List.length todo = n ->
  password_loop (done ++ todo ++ rest) seed (List.length done) n
  = (done ++ map pick (Spec.draws seed n) ++ rest, Spec.seed_after seed n).
Proof.
  induction n as [|n IH]; intros done todo rest seed Hlen.
  - destruct todo; [reflexivity | discriminate].
  - destruct todo as [|x todo]; [discriminate|].
    injection Hlen as Hlen.
    cbn [password_loop Spec.draws Spec.seed_after map].
    destruct (Prng.qrand_r seed) as [r seed'] eqn:E. cbn [fst snd].
    rewrite set_app by reflexivity. cbn [app]. fold (pick r).
    replace (S (List.length done))
      with (List.length (done ++ [pick r]))
      by (rewrite length_app; simpl; lia).
    replace (done ++ pick r :: todo ++ rest)
      with ((done ++ [pick r]) ++ todo ++ rest)
      by (rewrite <- app_assoc; reflexivity).
    rewrite (IH _ _ _ _ Hlen). rewrite <- app_assoc. reflexivity.
Qed.

Lemma qrand_r_range seed : 0 <= fst (Prng.qrand_r seed) < 32768.
Proof.
  unfold Prng.qrand_r. cbn [fst].
  set (x := Z.shiftr _ 16).
  change 32767 with (Z.ones 15). rewrite Z.land_ones by lia.
  change (2 ^ 15) with 32768. apply Z.mod_pos_bound. lia.
Qed.

Lemma draws_range n : forall seed,
  Forall (fun r => 0 <= r < 32768) (Spec.draws seed n).
Proof.
  induction n as [|n IH]; intros seed; simpl; constructor.
  - apply qrand_r_range.
  - apply IH.
Qed.

Lemma lookup_index_ok :
  forallb (fun k => memb (char_at lookup k) lookup_chars
                    && negb (Ascii.eqb (char_at lookup k) zero))
    (seq 0 92) = true.
Proof. vm_compute. reflexivity. Qed.

Lemma pick_ok r :
  0 <= r -> In (pick r) lookup_chars /\ Ascii.eqb (pick r) zero = false.
Proof.
  intros Hr. unfold pick, TABLE_SIZE.
  rewrite Z.rem_mod_nonneg by lia.
  pose proof (Z.mod_pos_bound r 92 ltac:(lia)) as Hb.
  pose proof lookup_index_ok as H. rewrite forallb_forall in H.
  specialize (H (Z.to_nat (r mod 92))).
  rewrite in_seq in H. specialize (H ltac:(lia)).
  apply andb_true_iff in H. destruct H as [H1 H2].
  apply memb_In in H1. apply negb_true_iff in H2. auto.
Qed.

Lemma to_string_picks l : forall rest,
  Forall (fun c => Ascii.eqb c zero = false) l ->
  Buf.to_string (l ++ zero :: rest) = string_of_list_ascii l.
Proof.
  induction l as [|c l IH]; intros rest H; simpl.
  - reflexivity.
  - inversion H as [|? ? Hc Hl]; subst. rewrite Hc. f_equal. now apply IH.
Qed.

Lemma string_of_list_length l :
  String.length (string_of_list_ascii l) = List.length l.
Proof. induction l; simpl; auto. Qed.

Lemma draws_length n : forall seed, List.length (Spec.draws seed n) = n.
Proof. induction n; intros; simpl; auto. Qed.

Lemma generate_password_array password seed :
  List.length password = 9%nat ->
  generate_password password seed
  = (map pick (Spec.draws seed 8) ++ [zero], Spec.seed_after seed 8).
Proof.
  intros Hlen. unfold generate_password, PASSWORD_LENGTH.
  destruct password as [|p0 [|p1 [|p2 [|p3 [|p4 [|p5 [|p6 [|p7 [|p8 [|p9 password]]]]]]]]]];
    try discriminate Hlen.
  pose proof (password_loop_spec 8 [] [p0; p1; p2; p3; p4; p5; p6; p7] [p8]
                seed eq_refl) as H.
  cbn [app List.length] in H. rewrite H.
  pose proof (draws_length 8 seed) as Hd.
  destruct (Spec.draws seed 8) as [|d0 [|d1 [|d2 [|d3 [|d4 [|d5 [|d6 [|d7 [|d8 ds]]]]]]]]];
    try discriminate Hd.
  reflexivity.
Qed.

End PasswordFacts.

(** C6.  From an array of nine bytes and a seed, [generate_password]
    leaves eight characters followed by the terminator.  The [i]-th
    character is the table entry at the [i]-th generator draw modulo 92;
    it is one of the table's 92 symbols, among which there is no number
    sign, backslash or tilde.  The array and the seed left behind depend on
    the starting seed only, not on what the array held. *)
Theorem generate_password_spec (password : Buf.t) (seed : Z) :
  List.length password = 9%nat ->
  let (password', seed') := Trip.generate_password password seed in
  password'
  = map (fun r => C.char_at Trip.lookup (Z.to_nat (r mod 92)))
      (Spec.draws seed 8) ++ [zero]
  /\ seed' = Spec.seed_after seed 8
  /\ String.length (Buf.to_string password') = 8%nat
  /\ Forall (fun c => In c (list_ascii_of_string Trip.lookup))
       (firstn 8 password')
  /\ String.length Trip.lookup = 92%nat
  /\ ~ In "#"%char (list_ascii_of_string Trip.lookup)
  /\ ~ In "092"%char (list_ascii_of_string Trip.lookup)
  /\ ~ In "~"%char (list_ascii_of_string Trip.lookup).
Proof.
  intros Hlen. rewrite (generate_password_array password seed Hlen).
  pose proof (draws_range 8 seed) as Hr.
  pose proof (draws_length 8 seed) as Hd.
  assert (Hpicks : Forall (fun c => In c lookup_chars
                                    /\ Ascii.eqb c zero = false)
                     (map pick (Spec.draws seed 8))).
  { apply Forall_map. eapply Forall_impl; [|exact Hr].
    intros r [Hr' _]. now apply pick_ok. }
  split.
  { f_equal. apply map_ext_in. intros r Hin.
    rewrite Forall_forall in Hr. specialize (Hr r Hin).
    unfold pick, Trip.TABLE_SIZE. rewrite Z.rem_mod_nonneg by lia.
    reflexivity. }
  split; [reflexivity|].
  split.
  { rewrite to_string_picks.
    - rewrite string_of_list_length, length_map. exact Hd.
    - eapply Forall_impl; [|exact Hpicks]. now intros c [_ H]. }
  split.
  { rewrite firstn_app, length_map, Hd, Nat.sub_diag, firstn_O, app_nil_r.
    rewrite firstn_all2 by (rewrite length_map; lia).
    eapply Forall_impl; [|exact Hpicks]. now intros c [H _]. }
  split; [reflexivity|].
  repeat split; intros H; apply memb_In in H; discriminate H.
Qed.

(** A run of C6 on a concrete array and seed. *)
Lemma generate_password_spec_witness :
  let (password', seed') := Trip.generate_password (Trip.fresh 9) 25 in
  password'
  = map (fun r => C.char_at Trip.lookup (Z.to_nat (r mod 92)))
      (Spec.draws 25 8) ++ [zero]
  /\ seed' = Spec.seed_after 25 8
  /\ String.length (Buf.to_string password') = 8%nat
  /\ Forall (fun c => In c (list_ascii_of_string Trip.lookup))
       (firstn 8 password')
  /\ String.length Trip.lookup = 92%nat
  /\ ~ In "#"%char (list_ascii_of_string Trip.lookup)
  /\ ~ In "092"%char (list_ascii_of_string Trip.lookup)
  /\ ~ In "~"%char (list_ascii_of_string Trip.lookup).
Proof. exact (generate_password_spec (Trip.fresh 9) 25 eq_refl). Defined.

(** ** The case-agnostic search *)

Section SearchFacts.
Import C Trip.
Variable sgn : bool.

(** After the first [+=] the haystack character is no capital letter, so
    the test of the second [+=] is false and the needle character is
    stored back as it was. *)
Lemma fold_pair_needle h n : snd (fold_pair sgn h n) = n.
Proof.
  unfold fold_pair. cbn [snd].
  replace ((lit "A" <=? cval sgn (to_char (cval sgn h + _)))
           && (cval sgn (to_char (cval sgn h + _)) <=? lit "Z"))
    with false
    by (destruct sgn; each_ascii h; reflexivity).
  destruct sgn; each_ascii n; reflexivity.
Qed.

Lemma fold_pair_haystack h n : fst (fold_pair sgn h n) = Spec.tolower h.
Proof.
  unfold fold_pair, Spec.tolower. cbn [fst].
  destruct sgn; each_ascii h; reflexivity.
Qed.

End SearchFacts.

(** C2, at the input where the code departs from it.  The needle ["A"]
    is made of letters only.  In the haystack ["aaaaaaaaa."] [strcasestr]
    finds nothing, because the needle character is compared unfolded with
    the folded haystack character; in the upper-cased haystack the
    lower-cased needle is found at offset 0. *)
Theorem strcasestr_asymmetric (sgn : bool) :
  Spec.letters_only "A" = true
  /\ Trip.strcasestr sgn "aaaaaaaaa." "A" = None
  /\ Trip.strcasestr sgn (Spec.uppercase "aaaaaaaaa.") (Spec.lowercase "A")
     = Some 0.
Proof.
  split; [reflexivity|].
  split; destruct sgn; vm_compute; reflexivity.
Qed.

(** ** The rate tracker *)

Section RateFacts.
Import Rate.

(** The blend is the integer half of the sum. *)
Lemma blend_half a t : blend a t = (a + t) / 2.
Proof.
  unfold blend, Qfloor, Qdiv, Qmult, Qplus, Qinv, inject_Z. cbn.
  replace (a * 1 * 2 + t * 1 * 2) with ((a + t) * 2) by lia.
  change 4 with (2 * 2).
  rewrite Z.div_mul_cancel_r by lia. reflexivity.
Qed.

(** The rational blend and the binary64 one agree on sample operands,
    the extremes of [unsigned] among them. *)
Lemma blend_binary64_samples :
  forallb (fun p => blend (fst p) (snd p) =? blend_binary64 (fst p) (snd p))
    [(0, 0); (0, 1); (1, 0); (1, 1); (0, 100); (50, 50); (51, 50);
     (353100, 347301); (16777217, 16777216); (4294967295, 0);
     (0, 4294967295); (4294967295, 4294967295); (4294967294, 4294967295);
     (2147483648, 2147483647)]
  = true.
Proof. vm_compute. reflexivity. Qed.

(** Calls within the second last recorded only raise the tally. *)
Lemma count_calls_same t : forall n st,
  time_at_last_call st = t ->
  0 <= current_tally st ->
  current_tally st + Z.of_nat n < 2 ^ 32 ->
  count_calls t n st
  = {| current_tally := current_tally st + Z.of_nat n;
       average := average st;
       time_at_last_call := t |}.
Proof.
  induction n as [|n IH]; intros st Ht H0 Hn.
  - destruct st as [tally avg last]; cbn in *. subst. f_equal. lia.
  - cbn [count_calls trip_frequency snd].
    rewrite Ht, Z.eqb_refl. cbn [negb snd].
    rewrite IH; cbn [current_tally average time_at_last_call];
      unfold C.to_unsigned, C.UINT_WIDTH;
      rewrite ?Z.mod_small by lia; try lia; try reflexivity.
    f_equal. lia.
Qed.

(** The first call of another second blends and restarts the tally. *)
Lemma count_calls_new t n st :
  time_at_last_call st <> t ->
  Z.of_nat (S n) < 2 ^ 32 ->
  count_calls t (S n) st
  = {| current_tally := Z.of_nat (S n);
       average := blend (average st) (current_tally st);
       time_at_last_call := t |}.
Proof.
  intros Ht Hn. cbn [count_calls trip_frequency snd].
  destruct (Z.eqb_spec t (time_at_last_call st)) as [E|_];
    [congruence|].
  cbn [negb snd].
  rewrite count_calls_same;
    cbn [current_tally average time_at_last_call]; try lia; try reflexivity.
  f_equal. lia.
Qed.

(** The first second of a run: the tally holds the number of calls and
    the average is still zero. *)
Lemma count_calls_initial t n :
  Z.of_nat n < 2 ^ 32 ->
  current_tally (count_calls t n initial) = Z.of_nat n
  /\ average (count_calls t n initial) = 0
  /\ (n <> O -> time_at_last_call (count_calls t n initial) = t).
Proof.
  intros Hn. destruct n as [|n]; [cbn; intuition congruence|].
  destruct (Z.eq_dec (time_at_last_call initial) t) as [E|E].
  - rewrite count_calls_same by (cbn in *; lia).
    cbn. repeat split; reflexivity.
  - rewrite count_calls_new by assumption.
    cbn [current_tally average time_at_last_call].
    repeat split; reflexivity.
Qed.

End RateFacts.

(** C3 as stated fails on its own scenario: after 100 calls in one second
    and 50 in the next, [FETCH_DATA] returns 50, not 75; it still returns
    50 once a call of a third second has blended the second tally in. *)
Lemma rate_100_then_50_is_not_75 :
  fst (Rate.trip_frequency Rate.FETCH_DATA 3
         (Rate.count_calls 2 50 (Rate.count_calls 1 100 Rate.initial)))
  <> 100 / 2 + 50 / 2
  /\ fst (Rate.trip_frequency Rate.FETCH_DATA 3
            (Rate.count_calls 3 1
               (Rate.count_calls 2 50 (Rate.count_calls 1 100 Rate.initial))))
     <> 100 / 2 + 50 / 2.
Proof. split; vm_compute; discriminate. Qed.

(** C3, amended.  From the initial state, [c1] calls in mode [COUNT_ONLY]
    during one second and [c2 >= 1] such calls during another second leave
    the average at the integer half of [c1]: the first call of the second
    second blends the tally [c1] with an average that is still zero.  A
    call in mode [FETCH_DATA] made afterwards returns that half, or the
    running tally [c2] when the half is zero.  For 100 then 50 calls it
    returns 50. *)
Theorem rate_after_two_seconds (t1 t2 tf : Z) (c1 c2 : nat) :
  t1 <> t2 ->
  (1 <= c2)%nat ->
  Z.of_nat c1 < 2 ^ 32 ->
  Z.of_nat c2 < 2 ^ 32 ->
  fst (Rate.trip_frequency Rate.FETCH_DATA tf
         (Rate.count_calls t2 c2 (Rate.count_calls t1 c1 Rate.initial)))
  = if Z.of_nat c1 / 2 =? 0 then Z.of_nat c2 else Z.of_nat c1 / 2.
Proof.
  intros Ht Hc2 H1 H2.
  destruct (count_calls_initial t1 c1 H1) as (Htally & Havg & Hlast).
  set (st := Rate.count_calls t1 c1 Rate.initial) in *.
  destruct c2 as [|c2]; [lia|].
  assert (Hfetch : forall st',
    Rate.average st' = Z.of_nat c1 / 2 ->
    Rate.current_tally st' = Z.of_nat (S c2) ->
    fst (Rate.trip_frequency Rate.FETCH_DATA tf st')
    = if Z.of_nat c1 / 2 =? 0 then Z.of_nat (S c2) else Z.of_nat c1 / 2).
  { intros st' Ha Hc. cbn [Rate.trip_frequency fst]. rewrite Ha, Hc.
    destruct (Z.of_nat c1 / 2 =? 0); reflexivity. }
  destruct (Z.eq_dec (Rate.time_at_last_call st) t2) as [E|E].
  - (* only possible when no call was made in the first second *)
    destruct c1 as [|c1].
    + apply Hfetch; rewrite count_calls_same by (rewrite ?Htally; lia);
        cbn [Rate.average Rate.current_tally]; rewrite ?Havg, ?Htally;
        [reflexivity | lia].
    + rewrite Hlast in E by discriminate. contradiction.
  - apply Hfetch; rewrite count_calls_new by assumption;
      cbn [Rate.average Rate.current_tally]; [|reflexivity].
    rewrite blend_half, Havg, Htally. reflexivity.
Qed.

(** The scenario of C3 run through the amended statement. *)
Lemma rate_after_two_seconds_witness :
  fst (Rate.trip_frequency Rate.FETCH_DATA 3
         (Rate.count_calls 2 50 (Rate.count_calls 1 100 Rate.initial)))
  = 50.
Proof.
  refine (rate_after_two_seconds 1 2 3 100 50 _ _ _ _).
  - discriminate.
  - apply Nat.leb_le. reflexivity.
  - reflexivity.
  - reflexivity.
Defined.

(** C9.  A call in mode [FETCH_DATA] leaves the tally, the average and the
    time of the last call as they were, whatever the state and the clock;
    so a call either is in mode [COUNT_ONLY] or changes nothing. *)
Theorem fetch_data_read_only :
  (forall t st,
     let st' := snd (Rate.trip_frequency Rate.FETCH_DATA t st) in
     Rate.current_tally st' = Rate.current_tally st
     /\ Rate.average st' = Rate.average st
     /\ Rate.time_at_last_call st' = Rate.time_at_last_call st)
  /\ (forall mode t st,
        mode = Rate.COUNT_ONLY \/ snd (Rate.trip_frequency mode t st) = st).
Proof.
  split.
  - intros t st. cbn. auto.
  - intros [|] t st; [left|right]; reflexivity.
Qed.

(** ** The rate formatter *)

Section FloatFacts.
Import Condense.

Ltac div_lia := Z.div_mod_to_equations; lia.

Lemma digits2_pos_size p : digits2_pos p = Pos.size p.
Proof. induction p as [p IH|p IH|]; cbn; congruence. Qed.

Lemma digits2_pos_log2 p : Z.pos (digits2_pos p) = Z.log2 (Z.pos p) + 1.
Proof.
  rewrite digits2_pos_size.
  destruct p as [p|p|]; cbn [Z.log2 Pos.size]; lia.
Qed.

Lemma digits2_pos_bounds p :
  2 ^ (Z.pos (digits2_pos p) - 1) <= Z.pos p < 2 ^ Z.pos (digits2_pos p).
Proof.
  rewrite digits2_pos_log2.
  pose proof (Z.log2_spec (Z.pos p) ltac:(lia)) as H.
  replace (Z.log2 (Z.pos p) + 1 - 1) with (Z.log2 (Z.pos p)) by lia.
  replace (Z.log2 (Z.pos p) + 1) with (Z.succ (Z.log2 (Z.pos p))) by lia.
  exact H.
Qed.

Lemma Zdigits2_log2 z : 0 < z -> Zdigits2 z = Z.log2 z + 1.
Proof.
  destruct z as [|p|p]; try lia. intros _. apply digits2_pos_log2.
Qed.

Lemma shr_1_nonneg m r s :
  0 <= m ->
  shr_1 {| shr_m := m; shr_r := r; shr_s := s |}
  = {| shr_m := m / 2; shr_r := Z.odd m; shr_s := r || s |}.
Proof.
  intros Hm. destruct m as [|[p|p|]|p]; try lia; cbn [shr_1 Z.odd].
  - reflexivity.
  - f_equal. rewrite Pos2Z.inj_xI. div_lia.
  - f_equal. rewrite Pos2Z.inj_xO. div_lia.
  - reflexivity.
Qed.

Lemma odd_mod2 z : Z.odd z = (z mod 2 =? 1).
Proof.
  rewrite Zodd_mod. reflexivity.
Qed.


Lemma iter_pos_shift {A} (f : A -> A) n : forall x,
  iter_pos f n (f x) = f (iter_pos f n x).
Proof.
  induction n as [n IH|n IH|]; intros x; cbn [iter_pos].
  - now rewrite !IH.
  - now rewrite !IH.
  - reflexivity.
Qed.

Lemma iter_pos_nat {A} (f : A -> A) n : forall x,
  iter_pos f n x = Nat.iter (Pos.to_nat n) f x.
Proof.
  induction n as [n IH|n IH|]; intros x; cbn [iter_pos].
  - rewrite Pos2Nat.inj_xI, !IH.
    replace (S (2 * Pos.to_nat n))
      with (Pos.to_nat n + (Pos.to_nat n + 1))%nat by lia.
    now rewrite !Nat.iter_add.
  - rewrite Pos2Nat.inj_xO, !IH.
    replace (2 * Pos.to_nat n)%nat
      with (Pos.to_nat n + Pos.to_nat n)%nat by lia.
    now rewrite Nat.iter_add.
  - reflexivity.
Qed.

(** Shifting right by [k + 1] places keeps the quotient, the last bit
    shifted out and whether any bit before it was set. *)
Lemma shr_1_iter m : 0 <= m -> forall k,
  Nat.iter (S k) shr_1 {| shr_m := m; shr_r := false; shr_s := false |}
  = {| shr_m := m / 2 ^ Z.of_nat (S k);
       shr_r := Z.odd (m / 2 ^ Z.of_nat k);
       shr_s := negb (m mod 2 ^ Z.of_nat k =? 0) |}.
Proof.
  intros Hm. induction k as [|k IH].
  - cbn [Nat.iter]. rewrite shr_1_nonneg by assumption.
    change (2 ^ Z.of_nat 1) with 2. change (2 ^ Z.of_nat 0) with 1.
    rewrite Z.div_1_r, Z.mod_1_r. reflexivity.
  - change (Nat.iter (S (S k)) shr_1 ?x) with (shr_1 (Nat.iter (S k) shr_1 x)).
    rewrite IH.
    assert (Hp : 0 < 2 ^ Z.of_nat k) by (apply Z.pow_pos_nonneg; lia).
    assert (Hs : 2 ^ Z.of_nat (S k) = 2 ^ Z.of_nat k * 2)
      by (rewrite Nat2Z.inj_succ, Z.pow_succ_r; lia).
    assert (Hss : 2 ^ Z.of_nat (S (S k)) = 2 ^ Z.of_nat (S k) * 2)
      by (rewrite (Nat2Z.inj_succ (S k)), Z.pow_succ_r; lia).
    rewrite shr_1_nonneg by (apply Z.div_pos; lia).
    f_equal.
    + rewrite Hss, Z.div_div by lia. reflexivity.
    + rewrite Hs, Z.rem_mul_r by lia.
      rewrite odd_mod2.
      pose proof (Z.mod_pos_bound m (2 ^ Z.of_nat k) Hp).
      pose proof (Z.mod_pos_bound (m / 2 ^ Z.of_nat k) 2 ltac:(lia)).
      destruct (Z.eqb_spec ((m / 2 ^ Z.of_nat k) mod 2) 1) as [E|E];
        destruct (Z.eqb_spec (m mod 2 ^ Z.of_nat k) 0) as [F|F];
        match goal with
        | |- _ = negb (?x =? 0) => destruct (Z.eqb_spec x 0)
        end;
        cbn [orb negb]; try reflexivity; exfalso; nia.
Qed.

Lemma shr_spec m n e :
  0 <= m ->
  shr {| shr_m := m; shr_r := false; shr_s := false |} e (Z.pos n)
  = ({| shr_m := m / 2 ^ Z.pos n;
        shr_r := Z.odd (m / 2 ^ (Z.pos n - 1));
        shr_s := negb (m mod 2 ^ (Z.pos n - 1) =? 0) |}, e + Z.pos n).
Proof.
  intros Hm. cbn [shr]. rewrite iter_pos_nat.
  destruct (Pos2Nat.is_succ n) as [k Hk]. rewrite Hk.
  rewrite (shr_1_iter m Hm k).
  replace (Z.of_nat (S k)) with (Z.pos n) by lia.
  replace (Z.of_nat k) with (Z.pos n - 1) by lia.
  reflexivity.
Qed.

Ltac eval_pow2 :=
  repeat match goal with
         | |- context [2 ^ ?k] =>
             let v := eval vm_compute in (2 ^ k) in change (2 ^ k) with v
         | H : context [2 ^ ?k] |- _ =>
             let v := eval vm_compute in (2 ^ k) in
             change (2 ^ k) with v in H
         end.

Lemma fexp_normal k : -125 <= k -> fexp prec emax k = k - 24.
Proof. intros H. unfold fexp, emin, prec, emax. lia. Qed.

Lemma Zdigits2_24 q : 2 ^ 23 <= q < 2 ^ 24 -> Zdigits2 q = 24.
Proof.
  intros H. rewrite Zdigits2_log2 by lia.
  rewrite (Z.log2_unique q 23); lia.
Qed.

(** The second half of [binary_round_aux], on a significand that the
    rounding has left with 24 bits or has carried into [2^24]. *)
Lemma round_aux_finish q e :
  2 ^ 23 <= q <= 2 ^ 24 -> 0 <= e <= 100 ->
  (let '(mrs, e') := shr_fexp prec emax q e loc_Exact in
   match shr_m mrs with
   | Z0 => S754_zero false
   | Zpos m =>
       if e' <=? emax - prec then S754_finite false m e'
       else S754_infinity false
   | Zneg _ => S754_nan
   end)
  = if q =? 2 ^ 24 then S754_finite false (2 ^ 23)%positive (e + 1)
    else S754_finite false (Z.to_pos q) e.
Proof.
  intros Hq He. unfold shr_fexp.
  destruct (Z.eqb_spec q (2 ^ 24)) as [->|Hne].
  - replace (fexp prec emax (Zdigits2 (2 ^ 24) + e) - e) with 1
      by (change (Zdigits2 (2 ^ 24)) with 25; rewrite fexp_normal; lia).
    cbn [shr_record_of_loc shr iter_pos shr_1 shr_m Z.pow Z.pow_pos Pos.iter
         Pos.mul Z.mul].
    replace (e + 1 <=? emax - prec) with true
      by (symmetry; apply Z.leb_le; unfold emax, prec; lia).
    reflexivity.
  - replace (fexp prec emax (Zdigits2 q + e) - e) with 0
      by (rewrite Zdigits2_24 by lia; rewrite fexp_normal; lia).
    cbn [shr_record_of_loc shr shr_m].
    destruct q as [|m|m]; try lia.
    replace (e <=? emax - prec) with true
      by (symmetry; apply Z.leb_le; unfold emax, prec; lia).
    reflexivity.
Qed.

Lemma round_aux_exact m e :
  2 ^ 23 <= Z.pos m < 2 ^ 24 -> 0 <= e + 23 <= 123 ->
  binary_round_aux prec emax false (Z.pos m) e loc_Exact
  = S754_finite false m e.
Proof.
  intros Hm He. unfold binary_round_aux, shr_fexp.
  replace (fexp prec emax (Zdigits2 (Z.pos m) + e) - e) with 0
    by (rewrite Zdigits2_24 by lia; rewrite fexp_normal; lia).
  cbn [shr_record_of_loc shr shr_m loc_of_shr_record round_nearest_even].
  replace (fexp prec emax (Zdigits2 (Z.pos m) + e) - e) with 0
    by (rewrite Zdigits2_24 by lia; rewrite fexp_normal; lia).
  cbn [shr shr_m].
  replace (e <=? emax - prec) with true
    by (symmetry; apply Z.leb_le; unfold emax, prec; lia).
  reflexivity.
Qed.

(** Rounding a significand of [24 + n] bits to 24 bits. *)
Lemma round_aux_shift p n :
  1 <= n <= 8 ->
  2 ^ (23 + n) <= Z.pos p < 2 ^ (24 + n) ->
  exists m e,
    binary_round_aux prec emax false (Z.pos p) 0 loc_Exact
    = S754_finite false m e
    /\ Spec.nearest_even (Z.pos p) m e.
Proof.
  intros Hn Hp.
  assert (Hdig : Zdigits2 (Z.pos p) = 24 + n).
  { rewrite Zdigits2_log2 by lia.
    rewrite (Z.log2_unique (Z.pos p) (23 + n)); try lia.
    replace (Z.succ (23 + n)) with (24 + n) by lia. exact Hp. }
  unfold binary_round_aux. unfold shr_fexp at 1.
  replace (fexp prec emax (Zdigits2 (Z.pos p) + 0) - 0) with n
    by (rewrite Hdig, fexp_normal; lia).
  cbn [shr_record_of_loc].
  assert (Hcases : n = 1 \/ n = 2 \/ n = 3 \/ n = 4
                   \/ n = 5 \/ n = 6 \/ n = 7 \/ n = 8) by lia.
  unfold Spec.nearest_even.
  repeat (destruct Hcases as [->|Hcases]); [| | | | | | |subst n];
    rewrite shr_spec by lia; cbn [shr_m Z.add];
    rewrite odd_mod2; eval_pow2;
    match goal with
    | |- context [Z.pos p / ?a mod 2 =? 1] =>
        destruct (Z.eqb_spec (Z.pos p / a mod 2) 1) as [Hr|Hr]
    end;
    match goal with
    | |- context [Z.pos p mod ?a =? 0] =>
        destruct (Z.eqb_spec (Z.pos p mod a) 0) as [Hs|Hs]
    end;
    cbn [negb loc_of_shr_record round_nearest_even];
    try match goal with
        | |- context [Z.even ?q] => destruct (Z.even q) eqn:Ev
        end;
    rewrite round_aux_finish by div_lia;
    match goal with
    | |- context [?q =? 2 ^ 24] =>
        destruct (Z.eqb_spec q (2 ^ 24)) as [Hq|Hq]
    end;
    eval_pow2;
    (eexists; eexists; split; [reflexivity|]);
    rewrite ?Z2Pos.id by div_lia;
    (split; [div_lia|]); (split; [lia|]);
    (split; [intros; lia|]);
    (split; [intros; lia|]); intros _;
    (split; [div_lia|]); intros Htie;
    first [ reflexivity
          | exact Ev
          | rewrite Z.even_add, Ev; reflexivity
          | exfalso; div_lia ].
Qed.

(** The conversion of a positive [unsigned] to [float]. *)
Lemma of_Z_sound rate :
  0 < rate < 2 ^ 32 ->
  exists m e,
    of_Z rate = S754_finite false m e /\ Spec.nearest_even rate m e.
Proof.
  intros Hrate. destruct rate as [|p|p]; try lia.
  unfold of_Z, binary_normalize, binary_round.
  pose proof (digits2_pos_bounds p) as Hb.
  assert (Hd : 1 <= Z.pos (digits2_pos p) <= 32).
  { split; [lia|].
    destruct (Z.le_gt_cases (Z.pos (digits2_pos p)) 32) as [H|H]; [exact H|].
    assert (2 ^ 32 <= 2 ^ (Z.pos (digits2_pos p) - 1))
      by (apply Z.pow_le_mono_r; lia).
    lia. }
  rewrite fexp_normal by lia.
  destruct (Z.le_gt_cases (Z.pos (digits2_pos p)) 24) as [Hshort|Hlong].
  - (* at most 24 bits: the significand is shifted left, nothing is lost *)
    assert (Hcases : exists k, (k <= 23)%nat
                               /\ Z.pos (digits2_pos p) = 24 - Z.of_nat k)
      by (exists (Z.to_nat (24 - Z.pos (digits2_pos p))); lia).
    destruct Hcases as [k [Hk Hdk]].
    rewrite Hdk in *. clear Hdk Hd Hshort.
    do 24 (destruct k as [|k];
           [ cbn -[binary_round_aux] in *;
             rewrite round_aux_exact by lia;
             eexists; eexists; split; [reflexivity|];
             unfold Spec.nearest_even;
             repeat split; try lia; intros; lia
           | ]).
    lia.
  - (* more than 24 bits: rounding *)
    unfold shl_align.
    destruct (Z.pos (digits2_pos p) + 0 - 24 - 0) eqn:E; try lia.
    apply (round_aux_shift p (Z.pos (digits2_pos p) - 24)); [lia|].
    replace (23 + (Z.pos (digits2_pos p) - 24))
      with (Z.pos (digits2_pos p) - 1) by lia.
    replace (24 + (Z.pos (digits2_pos p) - 24))
      with (Z.pos (digits2_pos p)) by lia.
    exact Hb.
Qed.

Lemma nearest_even_cases rate m e :
  Spec.nearest_even rate m e ->
  (e <= 0 /\ Z.pos m = rate * 2 ^ (- e))
  \/ (0 < e /\ 2 * Z.abs (Z.pos m * 2 ^ e - rate) < 2 ^ e)
  \/ (0 < e /\ 2 * Z.abs (Z.pos m * 2 ^ e - rate) = 2 ^ e
      /\ exists h, Z.pos m = 2 * h).
Proof.
  intros (_ & _ & _ & Hexact & Hround).
  destruct (Z.le_gt_cases e 0) as [He|He]; [left; auto|right].
  destruct (Hround He) as [Hle Htie].
  destruct (Z.eq_dec (2 * Z.abs (Z.pos m * 2 ^ e - rate)) (2 ^ e)) as [E|E].
  - right. repeat split; try assumption.
    apply Z.even_spec. auto.
  - left. split; [assumption | lia].
Qed.

Lemma magnitude_values :
  magnitude 0 = S754_zero false
  /\ magnitude 1 = S754_finite false 16384000 (-14)
  /\ magnitude 2 = S754_finite false 16000000 (-4)
  /\ magnitude 3 = S754_finite false 15625000 6
  /\ magnitude 4 = S754_finite false 15258789 16.
Proof. vm_compute. repeat split. Qed.

(** Comparison of two positive finite numbers: by exponent, then by
    significand. *)
Lemma SFltb_finite m1 e1 m2 e2 :
  SFltb (S754_finite false m1 e1) (S754_finite false m2 e2)
  = match e1 ?= e2 with
    | Lt => true
    | Eq => Z.pos m1 <? Z.pos m2
    | Gt => false
    end.
Proof.
  unfold SFltb, SFcompare. destruct (e1 ?= e2); reflexivity.
Qed.

(** The comparisons of the loop, as comparisons of integers.  The third
    one is where the rounding of the conversion shows: the rates from
    999999968 on are converted to [10^9]. *)
Lemma ltb_magnitudes rate :
  0 <= rate < 2 ^ 32 ->
  SFltb (of_Z rate) (magnitude 1) = (rate <? 1000)
  /\ SFltb (of_Z rate) (magnitude 2) = (rate <? 1000000)
  /\ SFltb (of_Z rate) (magnitude 3) = (rate <? 999999968)
  /\ SFltb (of_Z rate) (magnitude 4) = true.
Proof.
  intros Hrate.
  destruct magnitude_values as (_ & -> & -> & -> & ->).
  destruct (Z.eq_dec rate 0) as [->|Hnz]; [vm_compute; repeat split|].
  destruct (of_Z_sound rate ltac:(lia)) as (m & e & -> & Hne).
  pose proof (nearest_even_cases _ _ _ Hne) as Hc.
  destruct Hne as (Hm & He & _).
  rewrite !SFltb_finite.
  assert (Hk : exists k, (k <= 32)%nat /\ e = Z.of_nat k - 23)
    by (exists (Z.to_nat (e + 23)); lia).
  destruct Hk as [k [Hk ->]]. clear He.
  do 33 (destruct k as [|k];
         [ match goal with
           | |- context [Z.of_nat ?n - 23] =>
               let v := eval vm_compute in (Z.of_nat n - 23) in
               change (Z.of_nat n - 23) with v in *
           end;
           destruct Hc as [[? Hc]|[[? Hc]|[? [Hc [h Hh]]]]]; try lia;
           eval_pow2;
           repeat split;
           match goal with
           | |- context [(?a ?= ?b)%Z] =>
               let v := eval vm_compute in (a ?= b)%Z in
               change (a ?= b)%Z with v
           end;
           cbv beta iota;
           try reflexivity;
           apply eq_iff_eq_true; rewrite ?Z.ltb_lt;
           split; intros Hlt;
           first [ reflexivity | lia | discriminate Hlt | exfalso; lia ]
         | ]).
  lia.
Qed.

Lemma Qred_inject_Z z : Qred (inject_Z z) = inject_Z z.
Proof.
  unfold Qred, inject_Z.
  pose proof (Z.ggcd_gcd z 1) as Hg.
  pose proof (Z.ggcd_correct_divisors z 1) as Hd.
  destruct (Z.ggcd z 1) as [g [a b]]. cbn [fst snd] in *.
  rewrite Z.gcd_1_r in Hg. subst g. destruct Hd as [Ha Hb].
  assert (Eb : b = 1) by lia. assert (Ea : a = z) by lia.
  rewrite Ea, Eb. reflexivity.
Qed.

(** An [unsigned] of at most 24 bits is converted without rounding. *)
Lemma of_Z_exact rate :
  0 <= rate < 2 ^ 24 -> value (of_Z rate) = Some (inject_Z rate).
Proof.
  intros Hrate.
  destruct (Z.eq_dec rate 0) as [->|Hnz]; [reflexivity|].
  destruct (of_Z_sound rate ltac:(lia)) as (m & e & -> & Hne).
  destruct Hne as (_ & He & Hsmall & Hexact & _).
  specialize (Hsmall ltac:(lia)). specialize (Hexact Hsmall).
  cbn [value]. f_equal.
  rewrite <- (Qred_inject_Z rate). apply Qred_complete.
  destruct (Z.leb_spec 0 e) as [H0|H0].
  - assert (e = 0) by lia. subst e.
    change (2 ^ (- 0)) with 1 in Hexact. change (2 ^ 0) with 1.
    rewrite Hexact. unfold Qeq. cbn [Qnum Qden inject_Z]. lia.
  - assert (Hp : 0 < 2 ^ (- e)) by (apply Z.pow_pos_nonneg; lia).
    unfold Qeq. cbn [Qnum Qden inject_Z].
    rewrite Z2Pos.id by lia. lia.
Qed.

Lemma condense_loop_scale rate prefix :
  0 <= rate < 2 ^ 32 ->
  trip_rate_condense rate prefix
  = (fdiv (of_Z rate) (magnitude (Spec.scale rate)),
     nth (Spec.scale rate) trip_prefix zero).
Proof.
  intros Hrate.
  destruct (ltb_magnitudes rate Hrate) as (H1 & H2 & H3 & H4).
  unfold trip_rate_condense, MAGS, Spec.scale.
  cbn [condense_loop Nat.eqb negb Nat.sub].
  rewrite andb_false_r, H1, H2, H3, H4.
  destruct (rate <? 1000); [reflexivity|].
  destruct (rate <? 1000000); [reflexivity|].
  destruct (rate <? 999999968); reflexivity.
Qed.

End FloatFacts.

(** C7 as stated fails just below [10^9]: the rate 999999999 is at least
    [10^6] and less than [10^9], yet the prefix chosen is ['g'], with the
    value 1, because the conversion to [float] rounds the rate to
    [10^9]. *)
Lemma rate_999999999_is_giga :
  1000000 <= 999999999 < 1000000000
  /\ snd (Condense.trip_rate_condense 999999999 zero) <> "m"%char
  /\ Condense.report 999999999
     = Condense.Scaled (Condense.of_Z 1) "g"%char.
Proof.
  split; [lia|]. split.
  - vm_compute. discriminate.
  - vm_compute. reflexivity.
Qed.

(** C7, amended.  For every 32-bit [rate] the formatter compares the rate
    converted to [float] with the magnitudes 1000, [10^6] and [10^9] and
    settles on the empty prefix below 1000 (the reporters then print the
    raw counter), on ['k'] from 1000 to [10^6 - 1], on ['m'] from [10^6] to
    999999967 and on ['g'] from 999999968 on, the rates that the conversion
    rounds up to [10^9] included.  The value returned is the converted
    rate divided in [float] by the magnitude of the prefix, the converted
    rate is less than the next magnitude, and rates below [2^24] are
    converted exactly. *)
Theorem trip_rate_condense_scale (rate : Z) (prefix : ascii) :
  0 <= rate < 2 ^ 32 ->
  Condense.trip_rate_condense rate prefix
  = (Condense.fdiv (Condense.of_Z rate)
       (Condense.magnitude (Spec.scale rate)),
     nth (Spec.scale rate) Condense.trip_prefix zero)
  /\ Condense.report rate
     = (if rate <? 1000 then Condense.Raw rate
        else Condense.Scaled
               (Condense.fdiv (Condense.of_Z rate)
                  (Condense.magnitude (Spec.scale rate)))
               (nth (Spec.scale rate) Condense.trip_prefix zero))
  /\ SFltb (Condense.of_Z rate) (Condense.magnitude (S (Spec.scale rate)))
     = true
  /\ (rate < 2 ^ 24 ->
      Condense.value (Condense.of_Z rate) = Some (inject_Z rate))
  /\ map Condense.value Condense.trip_magnitude
     = [Some 0%Q; Some (inject_Z 1000); Some (inject_Z 1000000);
        Some (inject_Z 1000000000); Some (inject_Z 999999995904)]
  /\ Condense.trip_prefix = [zero; "k"; "m"; "g"; "t"]%char.
Proof.
  intros Hrate.
  pose proof (condense_loop_scale rate prefix Hrate) as Hloop.
  pose proof (condense_loop_scale rate zero Hrate) as Hzero.
  destruct (ltb_magnitudes rate Hrate) as (H1 & H2 & H3 & H4).
  split; [exact Hloop|].
  split.
  { unfold Condense.report. rewrite Hzero. unfold Spec.scale.
    destruct (rate <? 1000); [reflexivity|].
    destruct (rate <? 1000000); [reflexivity|].
    destruct (rate <? 999999968); reflexivity. }
  split.
  { unfold Spec.scale.
    destruct (rate <? 1000) eqn:E1; [congruence|].
    destruct (rate <? 1000000) eqn:E2; [congruence|].
    destruct (rate <? 999999968) eqn:E3; [congruence|exact H4]. }
  split; [intros; apply of_Z_exact; lia|].
  split; [vm_compute; reflexivity | reflexivity].
Qed.

(** The amended C7 at the rate where the statement was changed. *)
Lemma trip_rate_condense_scale_witness :
  Condense.report 999999999
  = Condense.Scaled
      (Condense.fdiv (Condense.of_Z 999999999) (Condense.magnitude 3))
      "g"%char.
Proof.
  assert (H : 0 <= 999999999 < 2 ^ 32) by (split; [discriminate|reflexivity]).
  exact (proj1 (proj2 (trip_rate_condense_scale 999999999 zero H))).
Defined.

(** ** [main] *)

Section ProgramFacts.
Import Program.
Variable sgn : bool.
Variable argv : list string.
Variable NUM_CORES : nat.

Local Abbreviation step := (Program.step sgn argv NUM_CORES).
Local Abbreviation steps := (Program.steps sgn argv NUM_CORES).
Local Abbreviation reachable := (Program.reachable sgn argv NUM_CORES).

Lemma steps_app s l1 s1 l2 s2 :
  steps s l1 s1 -> steps s1 l2 s2 -> steps s (l1 ++ l2) s2.
Proof.
  induction 1 as [s|s a s' l s'' Hstep _ IH]; intros H2; cbn.
  - assumption.
  - econstructor; [eassumption | auto].
Qed.

Lemma reachable_step a s s' : reachable s -> step a s s' -> reachable s'.
Proof.
  intros [l Hl] Hstep. exists (l ++ [a]).
  eapply steps_app; [eassumption|].
  econstructor; [eassumption | constructor].
Qed.

Lemma reachable_ind' (P : state -> Prop) :
  P boot ->
  (forall a s s', reachable s -> P s -> step a s s' -> P s') ->
  forall s, reachable s -> P s.
Proof.
  intros Hboot Hstep s [l Hl].
  assert (G : forall s0 l0 s1, steps s0 l0 s1 -> reachable s0 -> P s0 -> P s1).
  { clear s l Hl Hboot.
    induction 1 as [|s0 a s1 l s2 H1 _ IH]; intros Hr Hp.
    - assumption.
    - apply IH.
      + eapply reachable_step; eassumption.
      + eapply Hstep; eassumption. }
  apply (G boot l s Hl); [exists []; constructor | assumption].
Qed.

(** What holds of every state the program can be in. *)
Definition invariant (s : state) : Prop :=
  (pc s <> InPool -> workers s = [])
  /\ (started s = false -> run_state s = 0 /\ handler s = false)
  /\ (pc s = AtSignal -> run_state s = 1 /\ handler s = false)
  /\ (pc s = InPool -> handler s = true).

Lemma invariant_reachable s : reachable s -> invariant s.
Proof.
  apply reachable_ind'.
  - repeat split; intros; try reflexivity; cbn in *; congruence.
  - intros a s0 s1 _ (Hw & Hpre & Hsig & Hpool) Hstep.
    unfold invariant, started in *.
    inversion Hstep; subst; cbn [pc workers run_state handler] in *;
      repeat match goal with
             | H : pc _ = _ |- _ => rewrite H in *
             end;
      try (destruct (pc s0) eqn:Epc);
      try (assert (Hw' : workers s0 = []) by (apply Hw; discriminate));
      try (assert (Hpre' : run_state s0 = 0 /\ handler s0 = false)
             by (apply Hpre; reflexivity));
      try (assert (Hsig' : run_state s0 = 1 /\ handler s0 = false)
             by (apply Hsig; reflexivity));
      try (assert (Hpool' : handler s0 = true)
             by (apply Hpool; reflexivity));
      repeat split; intros; try discriminate; try tauto; try congruence;
      try (exfalso; intuition congruence).
Qed.

Lemma set_worker_same ws k w w0 :
  nth_error ws k = Some w0 -> nth_error (set_worker ws k w) k = Some w.
Proof.
  intros H. unfold set_worker.
  assert (Hk : (k < List.length ws)%nat)
    by (apply nth_error_Some; congruence).
  rewrite nth_error_app2 by (rewrite length_firstn; lia).
  rewrite length_firstn, Nat.min_l by lia.
  rewrite Nat.sub_diag. reflexivity.
Qed.

Lemma set_worker_other ws k w w0 j :
  nth_error ws k = Some w0 -> j <> k ->
  nth_error (set_worker ws k w) j = nth_error ws j.
Proof.
  intros H Hj. unfold set_worker.
  assert (Hk : (k < List.length ws)%nat)
    by (apply nth_error_Some; congruence).
  rewrite <- (firstn_skipn k ws) at 3.
  destruct (Nat.lt_ge_cases j k) as [Hlt|Hge].
  - rewrite !nth_error_app1 by (rewrite length_firstn; lia). reflexivity.
  - rewrite !nth_error_app2 by (rewrite length_firstn; lia).
    rewrite length_firstn, Nat.min_l by lia.
    destruct (j - k)%nat as [|d] eqn:Hd; [lia|].
    change (nth_error (w :: skipn (S k) ws) (S d))
      with (nth_error (skipn (S k) ws) d).
    rewrite !nth_error_skipn. f_equal. lia.
Qed.

(** Every change of [run_state] is the write of line 461, made by [main]
    while no worker exists, or the write of the handler. *)
Lemma run_state_writes a s s' :
  reachable s -> step a s s' -> run_state s' <> run_state s ->
  (a = Main /\ pc s = AtRunState /\ pc s' = AtSignal
   /\ run_state s = 0 /\ run_state s' = 1 /\ workers s = [])
  \/ (a = Interrupt /\ handler s = true /\ run_state s' = 0).
Proof.
  intros Hr Hstep Hne.
  destruct (invariant_reachable s Hr) as (Hw & Hpre & _).
  inversion Hstep; subst; cbn [pc run_state workers] in *;
    try congruence.
  - left. unfold started in Hpre.
    repeat split; try reflexivity; try assumption.
    + apply Hpre. now rewrite H.
    + apply Hw. congruence.
  - right. auto.
Qed.

(** Once [main] is past the write it stays past it, and from then on a
    step leaves [run_state] alone or clears it. *)
Lemma started_step a s s' :
  step a s s' -> started s = true ->
  started s' = true
  /\ (run_state s' = run_state s \/ run_state s' = 0).
Proof.
  intros Hstep Hs. unfold started in *.
  inversion Hstep; subst; cbn [pc run_state] in *;
    repeat match goal with
           | H : pc _ = _ |- _ => rewrite H in *
           end;
    try discriminate; auto.
Qed.

Lemma run_state_stays_clear s l s' :
  steps s l s' -> started s = true -> run_state s = 0 ->
  started s' = true /\ run_state s' = 0.
Proof.
  induction 1 as [s|s a s1 l s2 Hstep _ IH]; intros Hs H0; [auto|].
  destruct (started_step _ _ _ Hstep Hs) as [Hs1 Hrs].
  apply IH; [assumption | lia].
Qed.

(** With the flag clear, the turn of a worker at the loop top ends its
    loop, and a worker whose loop has ended takes no turn. *)
Lemma worker_stops s k s' :
  run_state s = 0 -> nth_error (workers s) k = Some LoopTop ->
  step (Worker k) s s' -> nth_error (workers s') k = Some Done.
Proof.
  intros H0 Hk Hstep.
  inversion Hstep; subst; cbn [workers]; try congruence.
  eapply set_worker_same; eassumption.
Qed.

Lemma worker_done_final s k s' :
  nth_error (workers s) k = Some Done -> ~ step (Worker k) s s'.
Proof.
  intros Hk Hstep. inversion Hstep; subst; congruence.
Qed.

Lemma remaining_turn s k s' :
  run_state s = 0 -> step (Worker k) s s' ->
  S (remaining_turns s' k) = remaining_turns s k.
Proof.
  intros H0 Hstep. unfold remaining_turns.
  inversion Hstep; subst; cbn [workers]; try congruence;
    erewrite set_worker_same by eassumption;
    match goal with H : nth_error _ _ = _ |- _ => rewrite H end;
    reflexivity.
Qed.

Lemma remaining_other a s k s' :
  reachable s -> started s = true -> run_state s = 0 ->
  step a s s' -> a <> Worker k ->
  (remaining_turns s' k <= remaining_turns s k)%nat.
Proof.
  intros Hr Hs H0 Hstep Ha.
  destruct (invariant_reachable s Hr) as (_ & _ & Hsig & _).
  unfold remaining_turns, started in *.
  inversion Hstep; subst; cbn [workers pc] in *;
    try (rewrite set_worker_other with (w0 := LoopTop)
           by (assumption || congruence));
    try (rewrite set_worker_other with (w0 := InBody)
           by (assumption || congruence));
    try apply Nat.le_refl.
  - destruct (Hsig ltac:(assumption)). lia.
  - destruct k; cbn; lia.
Qed.

(** After the flag is cleared a worker takes at most two more turns: the
    end of the iteration it is in, and the test that ends its loop. *)
Lemma worker_turns_bounded s l s' k :
  steps s l s' -> reachable s -> started s = true -> run_state s = 0 ->
  (turns k l + remaining_turns s' k <= remaining_turns s k)%nat.
Proof.
  induction 1 as [s|s a s1 l s2 Hstep Hsteps IH]; intros Hr Hs H0.
  - cbn. lia.
  - destruct (started_step _ _ _ Hstep Hs) as [Hs1 Hrs].
    assert (H1 : run_state s1 = 0) by lia.
    specialize (IH (reachable_step _ _ _ Hr Hstep) Hs1 H1).
    destruct a as [|k'|]; cbn [turns].
    + pose proof (remaining_other _ _ k _ Hr Hs H0 Hstep ltac:(discriminate)).
      lia.
    + destruct (Nat.eqb_spec k' k) as [->|Hne].
      * pose proof (remaining_turn _ _ _ H0 Hstep). lia.
      * pose proof (remaining_other _ _ k _ Hr Hs H0 Hstep
                      ltac:(congruence)).
        lia.
    + pose proof (remaining_other _ _ k _ Hr Hs H0 Hstep ltac:(discriminate)).
      lia.
Qed.

End ProgramFacts.

(** C8.  [run_state] changes in two ways only: [main] sets it to 1 at line
    461, once, while no worker exists, and the handler sets it to 0.  Once
    [main] is past line 461 it stays past it, and every step leaves
    [run_state] alone or clears it; so from a state where it is 0 every run
    keeps it 0.  There a worker at the loop top leaves its loop on its
    turn and takes no turn afterwards: in the rest of the run a worker
    takes at most two turns. *)
Theorem run_state_cleared_for_good
  (sgn : bool) (argv : list string) (NUM_CORES : nat) :
  (forall a s s',
     Program.reachable sgn argv NUM_CORES s ->
     Program.step sgn argv NUM_CORES a s s' ->
     Program.run_state s' <> Program.run_state s ->
     (a = Program.Main /\ Program.pc s = Program.AtRunState
      /\ Program.pc s' = Program.AtSignal
      /\ Program.run_state s = 0 /\ Program.run_state s' = 1
      /\ Program.workers s = [])
     \/ (a = Program.Interrupt /\ Program.handler s = true
         /\ Program.run_state s' = 0))
  /\ (forall a s s',
        Program.step sgn argv NUM_CORES a s s' ->
        Program.started s = true ->
        Program.started s' = true
        /\ (Program.run_state s' = Program.run_state s
            \/ Program.run_state s' = 0))
  /\ (forall s l s' k,
        Program.reachable sgn argv NUM_CORES s ->
        Program.started s = true ->
        Program.run_state s = 0 ->
        Program.steps sgn argv NUM_CORES s l s' ->
        Program.run_state s' = 0
        /\ (Program.turns k l <= Program.remaining_turns s k <= 2)%nat)
  /\ (forall s k s',
        Program.run_state s = 0 ->
        nth_error (Program.workers s) k = Some Program.LoopTop ->
        Program.step sgn argv NUM_CORES (Program.Worker k) s s' ->
        nth_error (Program.workers s') k = Some Program.Done)
  /\ (forall s k s',
        nth_error (Program.workers s) k = Some Program.Done ->
        ~ Program.step sgn argv NUM_CORES (Program.Worker k) s s').
Proof.
  split; [intros; eapply run_state_writes; eassumption|].
  split; [intros; eapply started_step; eassumption|].
  split.
  { intros s l s' k Hr Hs H0 Hsteps. split.
    - eapply run_state_stays_clear; eassumption.
    - pose proof (worker_turns_bounded _ _ _ _ _ _ k Hsteps Hr Hs H0).
      split; [lia|].
      unfold Program.remaining_turns.
      destruct (nth_error (Program.workers s) k) as [[| |]|]; lia. }
  split; [intros; eapply worker_stops; eassumption|].
  intros; eapply worker_done_final; eassumption.
Qed.

(** A run for C8: two workers, the first interrupted inside the body; it
    finishes the iteration, tests the flag and leaves the loop. *)
Lemma run_state_cleared_for_good_witness :
  let argv := ["tripforce"; "a"]%string in
  let s := {| Program.pc := Program.InPool; Program.run_state := 0;
              Program.handler := true; Program.mode := Program.CASE_SENSITIVE;
              Program.workers := [Program.InBody; Program.LoopTop] |} in
  let s' := {| Program.pc := Program.InPool; Program.run_state := 0;
               Program.handler := true; Program.mode := Program.CASE_SENSITIVE;
               Program.workers := [Program.Done; Program.LoopTop] |} in
  Program.reachable true argv 2 s
  /\ Program.steps true argv 2 s [Program.Worker 0; Program.Worker 0] s'
  /\ Program.run_state s' = 0
  /\ (Program.turns 0 [Program.Worker 0; Program.Worker 0]
      <= Program.remaining_turns s 0 <= 2)%nat.
Proof.
  intros argv s s'.
  assert (Hr : Program.reachable true argv 2 s).
  { exists [Program.Main; Program.Main; Program.Main;
            Program.Worker 0; Program.Interrupt].
    eapply Program.steps_cons;
      [apply (Program.step_proceed true argv 2 Program.boot
                Program.CASE_SENSITIVE eq_refl eq_refl)|].
    eapply Program.steps_cons;
      [apply Program.step_run_state; reflexivity|].
    eapply Program.steps_cons;
      [apply Program.step_signal; reflexivity|].
    eapply Program.steps_cons;
      [apply (Program.step_check_go true argv 2 _ 0);
       [reflexivity | reflexivity | discriminate]|].
    eapply Program.steps_cons;
      [apply Program.step_sigint_stop;
       [reflexivity | discriminate | discriminate]|].
    apply Program.steps_nil. }
  assert (Hsteps : Program.steps true argv 2 s
                     [Program.Worker 0; Program.Worker 0] s').
  { eapply Program.steps_cons;
      [apply (Program.step_body true argv 2 s 0); reflexivity|].
    eapply Program.steps_cons;
      [apply (Program.step_check_stop true argv 2 _ 0); reflexivity|].
    apply Program.steps_nil. }
  split; [exact Hr|]. split; [exact Hsteps|].
  exact (proj1 (proj2 (proj2 (run_state_cleared_for_good true argv 2)))
           s _ s' 0%nat Hr eq_refl eq_refl Hsteps).
Defined.

(** C4 as stated fails on the empty string: [validate_query] accepts it,
    [main] goes on in case-sensitive mode, and the pool is started. *)
Lemma empty_query_is_accepted :
  Query.validate_query true (Some ""%string) = (1, [])
  /\ Program.parse_args true ["tripforce"; ""]%string
     = Some (Program.Proceed Program.CASE_SENSITIVE)
  /\ exists s,
       Program.reachable true ["tripforce"; ""]%string 1 s
       /\ Program.pc s = Program.InPool
       /\ Program.workers s = [Program.LoopTop].
Proof.
  split; [reflexivity|]. split; [reflexivity|].
  eexists. split; [|split].
  - exists [Program.Main; Program.Main; Program.Main].
    eapply Program.steps_cons;
      [apply (Program.step_proceed true ["tripforce"; ""]%string 1
                Program.boot Program.CASE_SENSITIVE eq_refl eq_refl)|].
    eapply Program.steps_cons;
      [apply Program.step_run_state; reflexivity|].
    eapply Program.steps_cons;
      [apply Program.step_signal; reflexivity|].
    apply Program.steps_nil.
  - reflexivity.
  - reflexivity.
Qed.

Section AbsentQuery.
Import Program.
Variable sgn : bool.
Variable prog : string.
Variable NUM_CORES : nat.

Lemma parse_args_absent :
  parse_args sgn [prog; "-i"%string]
  = Some (Exit 1 [Query.ERROR_NO_QUERY]).
Proof. reflexivity. Qed.

Lemma absent_query_states s :
  reachable sgn [prog; "-i"%string] NUM_CORES s ->
  workers s = [] /\ run_state s = 0 /\ handler s = false
  /\ (pc s = AtArgs \/ pc s = Exited 1 \/ pc s = Killed).
Proof.
  revert s.
  refine (reachable_ind' sgn [prog; "-i"%string] NUM_CORES
            (fun s => workers s = [] /\ run_state s = 0
                      /\ handler s = false
                      /\ (pc s = AtArgs \/ pc s = Exited 1
                          \/ pc s = Killed)) _ _).
  - cbn. auto.
  - intros a s0 s1 _ (Hw & H0 & Hh & Hpc) Hstep.
    inversion Hstep; subst; cbn [pc workers run_state handler] in *;
      try (exfalso; intuition congruence);
      repeat split; auto.
    + match goal with
      | H : parse_args _ _ = Some (Exit _ _) |- _ =>
          rewrite parse_args_absent in H; injection H as <- <-
      end.
      auto.
    + match goal with
      | H : parse_args _ _ = Some (Proceed _) |- _ =>
          rewrite parse_args_absent in H; discriminate H
      end.
Qed.

End AbsentQuery.

(** C4, amended.  When [-i] is the only argument the query is absent:
    [validate_query] is handed the null pointer, rejects it and reports
    that no query string was provided; [main] returns 1 as its next step,
    and no state the program can reach has a worker or a set [run_state].
    The empty string is a query that [validate_query] accepts, alone or
    after [-i], and [main] proceeds with it. *)
Theorem absent_query_exits_1 (sgn : bool) (prog : string) (NUM_CORES : nat) :
  Query.validate_query sgn None = (0, [Query.ERROR_NO_QUERY])
  /\ Program.parse_args sgn [prog; "-i"%string]
     = Some (Program.Exit 1 [Query.ERROR_NO_QUERY])
  /\ (exists s',
        Program.step sgn [prog; "-i"%string] NUM_CORES
          Program.Main Program.boot s'
        /\ Program.pc s' = Program.Exited 1)
  /\ (forall s,
        Program.reachable sgn [prog; "-i"%string] NUM_CORES s ->
        Program.workers s = [] /\ Program.run_state s = 0
        /\ (Program.pc s = Program.AtArgs \/ Program.pc s = Program.Exited 1
            \/ Program.pc s = Program.Killed))
  /\ Query.validate_query sgn (Some ""%string) = (1, [])
  /\ Program.parse_args sgn [prog; ""%string]
     = Some (Program.Proceed Program.CASE_SENSITIVE)
  /\ Program.parse_args sgn [prog; "-i"; ""]%string
     = Some (Program.Proceed Program.CASE_AGNOSTIC).
Proof.
  split; [reflexivity|]. split; [reflexivity|].
  split.
  { eexists. split.
    - apply (Program.step_exit1 sgn [prog; "-i"%string] NUM_CORES
               Program.boot 1 [Query.ERROR_NO_QUERY] eq_refl eq_refl).
    - reflexivity. }
  split.
  { intros s Hr.
    destruct (absent_query_states sgn prog NUM_CORES s Hr)
      as (Hw & H0 & _ & Hpc).
    auto. }
  split; [reflexivity|]. split; reflexivity.
Qed.

(** The exit state of C4 is among the states the amended statement speaks
    of. *)
Lemma absent_query_exits_1_witness :
  let s := {| Program.pc := Program.Exited 1; Program.run_state := 0;
              Program.handler := false; Program.mode := Program.NO_QUERY_MODE;
              Program.workers := [] |} in
  Program.reachable true ["tripforce"; "-i"]%string 1 s
  /\ Program.workers s = [] /\ Program.run_state s = 0
  /\ (Program.pc s = Program.AtArgs \/ Program.pc s = Program.Exited 1
      \/ Program.pc s = Program.Killed).
Proof.
  intros s.
  assert (Hr : Program.reachable true ["tripforce"; "-i"]%string 1 s).
  { exists [Program.Main].
    eapply Program.steps_cons;
      [apply (Program.step_exit1 true ["tripforce"; "-i"]%string 1
                Program.boot 1 [Query.ERROR_NO_QUERY] eq_refl eq_refl)|].
    apply Program.steps_nil. }
  split; [exact Hr|].
  exact (proj1 (proj2 (proj2 (proj2
           (absent_query_exits_1 true "tripforce" 1)))) s Hr).
Defined.

(** ** The generator and the seed source *)

Section SeedFacts.
Import C Seeds Law.

Ltac div_lia := Z.div_mod_to_equations; lia.

(** The seed update is undone by multiplying with the inverse of the
    multiplier. *)
Lemma qrand_r_inverse seed :
  0 <= seed < 2 ^ 32 ->
  to_unsigned (Law.inverse_multiplier * (snd (Prng.qrand_r seed) - 2531011))
  = seed.
Proof.
  intros Hs. unfold Prng.qrand_r, to_unsigned, UINT_WIDTH,
    Law.inverse_multiplier. cbn [snd].
  change (2 ^ 32) with 4294967296 in *.
  div_lia.
Qed.

Lemma qrand_state_range s : 0 <= snd (qrand s) < 2 ^ 32.
Proof.
  unfold qrand, to_unsigned, UINT_WIDTH. cbn [snd].
  apply Z.mod_pos_bound. reflexivity.
Qed.

Lemma qrand_out_range s : 0 <= fst (qrand s) < 32768.
Proof. exact (qrand_r_range s). Qed.

(** A state whose output is zero has bits 16 to 30 clear. *)
Lemma zero_output_states x :
  0 <= x < 2 ^ 32 ->
  Z.land (Z.shiftr x 16) 32767 = 0 ->
  0 <= x < 65536 \/ 2147483648 <= x < 2147483648 + 65536.
Proof.
  intros Hx. change 32767 with (Z.ones 15).
  rewrite Z.land_ones, Z.shiftr_div_pow2 by lia.
  change (2 ^ 32) with 4294967296 in Hx.
  change (2 ^ 16) with 65536. change (2 ^ 15) with 32768.
  intros H. div_lia.
Qed.

Lemma all_from_spec P : forall n z,
  all_from n z P = true ->
  forall x, z <= x < z + Z.of_nat n -> P x = true.
Proof.
  induction n as [|n IH]; intros z H x Hx; [lia|].
  cbn [all_from] in H. apply andb_true_iff in H. destruct H as [Hz Hn].
  destruct (Z.eq_dec x z) as [->|Hne]; [assumption|].
  apply (IH (z + 1) Hn). lia.
Qed.

Lemma recovers_mask_eq x : recovers x = recovers_mask x.
Proof.
  unfold recovers, recovers_mask, qrand, to_unsigned, UINT_WIDTH.
  cbn [fst snd]. change 4294967295 with (Z.ones 32).
  rewrite !Z.land_ones by lia. reflexivity.
Qed.

Lemma zero_runs_checked :
  all_from (Z.to_nat 65536) 0 recovers_mask
  && all_from (Z.to_nat 65536) 2147483648 recovers_mask = true.
Proof. vm_compute. reflexivity. Qed.

Lemma zero_run_short x :
  0 <= x < 2 ^ 32 ->
  Z.land (Z.shiftr x 16) 32767 = 0 ->
  recovers x = true.
Proof.
  intros Hx H0.
  pose proof zero_runs_checked as H. apply andb_true_iff in H.
  destruct H as [Hlow Hhigh].
  destruct (zero_output_states x Hx H0) as [Hr|Hr].
  - rewrite recovers_mask_eq.
    apply (all_from_spec _ _ _ Hlow). rewrite Z2Nat.id by lia. lia.
  - rewrite recovers_mask_eq.
    apply (all_from_spec _ _ _ Hhigh). rewrite Z2Nat.id by lia. lia.
Qed.

(** Three calls are enough for the first loop, whatever the seed. *)
Lemma draw_nonzero_3 s :
  exists r s', draw_nonzero 3 s = Some (r, s')
               /\ 0 < r < 32768 /\ 0 <= s' < 2 ^ 32.
Proof.
  cbn [draw_nonzero].
  pose proof (qrand_out_range s) as Hr1.
  pose proof (qrand_state_range s) as Hs1.
  destruct (qrand s) as [r1 s1] eqn:E1. cbn [fst snd] in *.
  destruct (Z.eqb_spec r1 0) as [Hz1|Hn1];
    [|exists r1, s1; repeat split; lia].
  assert (Hrec : recovers s1 = true).
  { apply zero_run_short; [assumption|].
    subst r1. unfold qrand in E1. injection E1 as E1 E1'.
    rewrite <- E1'. exact E1. }
  unfold recovers in Hrec.
  pose proof (qrand_out_range s1) as Hr2.
  pose proof (qrand_state_range s1) as Hs2.
  destruct (qrand s1) as [r2 s2] eqn:E2. cbn [fst snd] in *.
  destruct (Z.eqb_spec r2 0) as [Hz2|Hn2];
    [|exists r2, s2; repeat split; lia].
  pose proof (qrand_out_range s2) as Hr3.
  pose proof (qrand_state_range s2) as Hs3.
  destruct (qrand s2) as [r3 s3] eqn:E3. cbn [fst snd] in *.
  destruct (Z.eqb_spec r3 0) as [Hz3|Hn3];
    [discriminate Hrec|exists r3, s3; repeat split; lia].
Qed.

Lemma draw_nonzero_more fuel : forall s x k,
  draw_nonzero fuel s = Some x -> draw_nonzero (fuel + k) s = Some x.
Proof.
  induction fuel as [|fuel IH]; intros s x k H; [discriminate|].
  cbn [draw_nonzero Nat.add] in *.
  destruct (qrand s) as [r s1]. destruct (r =? 0); [auto|assumption].
Qed.

Lemma next_seed_total fuel s :
  (3 <= fuel)%nat ->
  exists seed s', next_seed fuel s = Some (seed, s')
                  /\ 0 <= seed < 32768 /\ 0 <= s' < 2 ^ 32.
Proof.
  intros Hfuel. unfold next_seed.
  destruct (draw_nonzero_3 s) as (r & s1 & Hd & _ & _).
  replace fuel with (3 + (fuel - 3))%nat by lia.
  rewrite (draw_nonzero_more 3 s _ _ Hd).
  destruct (skip (Z.to_nat r) s1) as [u s2].
  pose proof (qrand_out_range s2). pose proof (qrand_state_range s2).
  destruct (qrand s2) as [seed s3]. cbn [fst snd] in *.
  exists seed, s3. auto.
Qed.

End SeedFacts.

(** X1. Injectivity of the seed update: two seeds of 32 bits that [qrand_r]
    sends to the same seed are equal. *)
Theorem qrand_r_injective (seed1 seed2 : Z) :
  0 <= seed1 < 2 ^ 32 -> 0 <= seed2 < 2 ^ 32 ->
  snd (Prng.qrand_r seed1) = snd (Prng.qrand_r seed2) ->
  seed1 = seed2.
Proof.
  intros H1 H2 E.
  rewrite <- (qrand_r_inverse seed1 H1), <- (qrand_r_inverse seed2 H2), E.
  reflexivity.
Qed.

Lemma qrand_r_injective_witness :
  snd (Prng.qrand_r 25) = snd (Prng.qrand_r 25) /\ 25 = 25.
Proof.
  split; [reflexivity|].
  apply (qrand_r_injective 25 25); [lia | lia | reflexivity].
Defined.

(** X2. With three or more calls allowed to its first loop, [seed_qrand_r]
    fills all [num] entries, whatever the seed it starts from, and every
    entry is a 15-bit value. *)
Theorem seed_qrand_r_total (fuel num : nat) (s : Z) :
  (3 <= fuel)%nat ->
  exists seeds s',
    Seeds.seed_qrand_r fuel num s = Some (seeds, s')
    /\ List.length seeds = num
    /\ Forall (fun seed => 0 <= seed < 32768) seeds.
Proof.
  intros Hfuel. revert s. induction num as [|num IH]; intros s.
  - exists [], s. repeat split. constructor.
  - cbn [Seeds.seed_qrand_r].
    destruct (next_seed_total fuel s Hfuel) as (seed & s1 & -> & Hseed & _).
    destruct (IH s1) as (seeds & s2 & -> & Hlen & Hall).
    exists (seed :: seeds), s2. repeat split.
    + cbn. now rewrite Hlen.
    + constructor; assumption.
Qed.

Lemma seed_qrand_r_total_witness :
  exists seeds s',
    Seeds.seed_qrand_r 3 2 12345 = Some (seeds, s')
    /\ List.length seeds = 2%nat
    /\ Forall (fun seed => 0 <= seed < 32768) seeds.
Proof.
  apply (seed_qrand_r_total 3 2 12345). apply Nat.leb_le. reflexivity.
Defined.

(** ** The tripcode *)

Lemma eqb_zero_false c : c <> zero -> Ascii.eqb c zero = false.
Proof. intros H. apply Ascii.eqb_neq. exact H. Qed.

(** X3. From the 13 characters that [DES_fcrypt] leaves before the
    terminator, [truncate_tripcode] keeps the ten at offsets 3 to 12: the
    tripcode is that substring, ten characters long, in an array still 14
    bytes long. *)
Theorem truncate_tripcode_substring (digest : string) :
  String.length digest = 13%nat ->
  (forall i c, String.get i digest = Some c -> c <> zero) ->
  let hash := list_ascii_of_string digest ++ [zero] in
  Buf.to_string (Digest.truncate_tripcode hash) = String.substring 3 10 digest
  /\ String.length (Buf.to_string (Digest.truncate_tripcode hash)) = 10%nat
  /\ List.length (Digest.truncate_tripcode hash) = 14%nat.
Proof.
  intros Hlen Hnz.
  destruct digest as [|c0 [|c1 [|c2 [|c3 [|c4 [|c5 [|c6 [|c7 [|c8 [|c9
    [|c10 [|c11 [|c12 [|c13 digest]]]]]]]]]]]]]]; try discriminate Hlen.
  assert (H3 := eqb_zero_false _ (Hnz 3%nat c3 eq_refl)).
  assert (H4 := eqb_zero_false _ (Hnz 4%nat c4 eq_refl)).
  assert (H5 := eqb_zero_false _ (Hnz 5%nat c5 eq_refl)).
  assert (H6 := eqb_zero_false _ (Hnz 6%nat c6 eq_refl)).
  assert (H7 := eqb_zero_false _ (Hnz 7%nat c7 eq_refl)).
  assert (H8 := eqb_zero_false _ (Hnz 8%nat c8 eq_refl)).
  assert (H9 := eqb_zero_false _ (Hnz 9%nat c9 eq_refl)).
  assert (H10 := eqb_zero_false _ (Hnz 10%nat c10 eq_refl)).
  assert (H11 := eqb_zero_false _ (Hnz 11%nat c11 eq_refl)).
  assert (H12 := eqb_zero_false _ (Hnz 12%nat c12 eq_refl)).
  cbv [Digest.truncate_tripcode Digest.memmove Digest.HASH_OFFSET
       Digest.TRIPCODE_LENGTH list_ascii_of_string app firstn skipn
       Buf.set Nat.add Buf.to_string String.substring].
  rewrite H3, H4, H5, H6, H7, H8, H9, H10, H11, H12.
  repeat split.
Qed.

Lemma truncate_tripcode_substring_witness :
  Buf.to_string
    (Digest.truncate_tripcode
       (list_ascii_of_string "abcdefghijklm" ++ [zero]))
  = "defghijklm"%string.
Proof.
  refine (proj1 (truncate_tripcode_substring "abcdefghijklm" eq_refl _)).
  intros i c H.
  do 13 (destruct i as [|i]; [injection H as <-; discriminate|]).
  discriminate H.
Defined.

(** ** The case-agnostic search, in full *)

Section SearchLaws.
Import C Trip Law.
Variable sgn : bool.

Lemma code_range c : 0 <= code c < 256.
Proof. each_ascii c; vm_compute; split; congruence. Qed.

Lemma code_inj a b : code a = code b -> a = b.
Proof.
  unfold code. intros H. apply N2Z.inj in H.
  rewrite <- (ascii_N_embedding a), <- (ascii_N_embedding b), H.
  reflexivity.
Qed.

(** Promotion to [int] keeps characters apart. *)
Lemma cval_eqb a b : (cval sgn a =? cval sgn b) = Ascii.eqb a b.
Proof.
  pose proof (code_range a). pose proof (code_range b).
  destruct (Ascii.eqb_spec a b) as [->|Hne].
  - apply Z.eqb_refl.
  - apply Z.eqb_neq. intros E. apply Hne, code_inj.
    unfold cval in E.
    destruct sgn; cbn [andb] in E;
      destruct (128 <=? code a), (128 <=? code b); lia.
Qed.

Lemma char_at_lowercase s : forall t,
  char_at (Spec.lowercase s) t = Spec.tolower (char_at s t).
Proof.
  unfold char_at.
  induction s as [|c s IH]; intros [|t]; cbn; try reflexivity.
  apply IH.
Qed.

Lemma lowercase_length s :
  String.length (Spec.lowercase s) = String.length s.
Proof. induction s; cbn; congruence. Qed.

Lemma char_at_drop s : forall i t,
  char_at (drop i s) t = char_at s (i + t).
Proof.
  unfold char_at.
  induction s as [|c s IH]; intros [|i] t; cbn [drop Nat.add].
  - reflexivity.
  - cbn. destruct (i + t)%nat; reflexivity.
  - reflexivity.
  - cbn [String.get]. apply IH.
Qed.

Lemma drop_length s : forall i,
  String.length (drop i s) = (String.length s - i)%nat.
Proof.
  induction s as [|c s IH]; intros [|i]; cbn; try reflexivity. apply IH.
Qed.

Lemma drop_cons s : forall i,
  (i < String.length s)%nat ->
  drop i s = String (char_at s i) (drop (S i) s).
Proof.
  unfold char_at.
  induction s as [|c s IH]; intros [|i] Hi; cbn in *; try lia.
  - reflexivity.
  - rewrite (IH i) by lia. reflexivity.
Qed.

Lemma prefix_of_spec n : forall s,
  prefix_of n s = true <->
  (String.length n <= String.length s)%nat
  /\ (forall t, (t < String.length n)%nat ->
                Ascii.eqb (char_at n t) (char_at s t) = true).
Proof.
  unfold char_at.
  induction n as [|a n IH]; intros s; cbn [prefix_of String.length].
  - split; [intros _; split; [lia | intros t Ht; lia] | reflexivity].
  - destruct s as [|b s]; cbn [String.length].
    + split; [discriminate | intros [H _]; lia].
    + rewrite andb_true_iff, IH. split.
      * intros [Hab [Hlen Hall]]. split; [lia|].
        intros [|t] Ht; cbn; [assumption | apply Hall; lia].
      * intros [Hlen Hall]. split; [exact (Hall 0%nat ltac:(lia))|].
        split; [lia|]. intros t Ht. exact (Hall (S t) ltac:(lia)).
Qed.

Section Loops.
Variables haystack needle : string.
Let LH := Z.of_nat (String.length haystack).
Let LN := Z.of_nat (String.length needle).
Hypothesis Hfit : LH + LN < 2 ^ 32.

(** The test of the inner loop at offset [i], position [j]. *)
Let hit (i j : nat) : bool :=
  Ascii.eqb (Spec.tolower (char_at haystack (i + j))) (char_at needle j).

Lemma to_unsigned_small z : 0 <= z < 2 ^ 32 -> to_unsigned z = z.
Proof. intros H. unfold to_unsigned, UINT_WIDTH. apply Z.mod_small. lia. Qed.

Lemma inner_loop_count i : forall k j m,
  Z.of_nat i + LN <= LH ->
  Z.of_nat j + Z.of_nat k <= LN ->
  0 <= m -> m + Z.of_nat k < 2 ^ 32 ->
  let r := inner_loop sgn haystack needle LH LN (Z.of_nat i) (Z.of_nat j) k m in
  m <= r <= m + Z.of_nat k
  /\ (r = m + Z.of_nat k <->
      forall t, (t < k)%nat -> hit i (j + t) = true).
Proof.
  induction k as [|k IH]; intros j m Hi Hj Hm Hk; cbn [inner_loop].
  - split; [lia|]. split; [intros _ t Ht; lia | lia].
  - rewrite to_unsigned_small by lia.
    destruct (Z.leb_spec (Z.of_nat i + LN) LH) as [_|Hgt]; [|lia].
    rewrite (to_unsigned_small (Z.of_nat i + Z.of_nat j)) by lia.
    pose proof (fold_pair_haystack sgn
                  (char_at haystack (Z.to_nat (Z.of_nat i + Z.of_nat j)))
                  (char_at needle (Z.to_nat (Z.of_nat j)))) as Hh.
    pose proof (fold_pair_needle sgn
                  (char_at haystack (Z.to_nat (Z.of_nat i + Z.of_nat j)))
                  (char_at needle (Z.to_nat (Z.of_nat j)))) as Hn.
    destruct (fold_pair sgn _ _) as [h n]. cbn [fst snd] in Hh, Hn.
    subst h n. rewrite cval_eqb.
    replace (Z.to_nat (Z.of_nat i + Z.of_nat j)) with (i + j)%nat by lia.
    rewrite Nat2Z.id. fold (hit i j).
    replace (Z.of_nat j + 1) with (Z.of_nat (S j)) by lia.
    destruct (hit i j) eqn:Hhit.
    + rewrite (to_unsigned_small (m + 1)) by lia.
      destruct (IH (S j) (m + 1) Hi ltac:(lia) ltac:(lia) ltac:(lia))
        as [Hr Hiff].
      split; [lia|]. split.
      * intros E t Ht. destruct t as [|t].
        -- rewrite Nat.add_0_r. exact Hhit.
        -- replace (j + S t)%nat with (S j + t)%nat by lia.
           apply Hiff; lia.
      * intros Hall. apply proj2 in Hiff.
        rewrite Hiff; [lia|]. intros t Ht.
        replace (S j + t)%nat with (j + S t)%nat by lia.
        apply Hall. lia.
    + destruct (IH (S j) m Hi ltac:(lia) ltac:(lia) ltac:(lia))
        as [Hr Hiff].
      split; [lia|]. split.
      * intros E. lia.
      * intros Hall. specialize (Hall 0%nat ltac:(lia)).
        rewrite Nat.add_0_r in Hall. congruence.
Qed.

Lemma inner_loop_break i k :
  LH < Z.of_nat i + LN -> Z.of_nat i < LH ->
  inner_loop sgn haystack needle LH LN (Z.of_nat i) 0 k 0 = 0.
Proof.
  intros Hgt Hi. destruct k as [|k]; cbn [inner_loop]; [reflexivity|].
  rewrite to_unsigned_small by lia.
  destruct (Z.leb_spec (Z.of_nat i + LN) LH); [lia | reflexivity].
Qed.

(** The test [matches == len_n] at offset [i] says that the needle, as it
    is, starts the lower-cased haystack there. *)
Lemma matches_iff_prefix i :
  Z.of_nat i < LH ->
  (inner_loop sgn haystack needle LH LN (Z.of_nat i) 0 (Z.to_nat LN) 0 =? LN)
  = prefix_of needle (drop i (Spec.lowercase haystack)).
Proof.
  intros Hi. apply eq_iff_eq_true. rewrite Z.eqb_eq, prefix_of_spec.
  rewrite drop_length, lowercase_length.
  destruct (Z.le_gt_cases (Z.of_nat i + LN) LH) as [Hle|Hgt].
  - destruct (inner_loop_count i (Z.to_nat LN) 0 0 Hle ltac:(lia)
                ltac:(lia) ltac:(lia)) as [_ Hiff].
    cbn [Z.of_nat Z.add] in Hiff.
    replace (Z.of_nat (Z.to_nat LN)) with LN in Hiff by (unfold LN; lia).
    rewrite Hiff. split.
    + intros Hall. split; [lia|]. intros t Ht.
      rewrite char_at_drop, char_at_lowercase, Ascii.eqb_sym.
      exact (Hall t ltac:(unfold LN; lia)).
    + intros [_ Hall] t Ht.
      specialize (Hall t ltac:(unfold LN in Ht; lia)).
      rewrite char_at_drop, char_at_lowercase, Ascii.eqb_sym in Hall.
      exact Hall.
  - rewrite inner_loop_break by lia. split; [lia|]. intros [Hlen _]. lia.
Qed.

Lemma outer_loop_find : forall k i,
  Z.of_nat k + Z.of_nat i = LH ->
  outer_loop sgn haystack needle LH LN (Z.of_nat i) k
  = find_from needle (drop i (Spec.lowercase haystack)) (Z.of_nat i).
Proof.
  induction k as [|k IH]; intros i Hk; cbn [outer_loop].
  - assert (E : drop i (Spec.lowercase haystack) = EmptyString).
    { pose proof (drop_length (Spec.lowercase haystack) i) as Hd.
      rewrite lowercase_length in Hd.
      destruct (drop i (Spec.lowercase haystack)); [reflexivity|].
      cbn in Hd. lia. }
    rewrite E. reflexivity.
  - rewrite matches_iff_prefix by lia.
    rewrite (drop_cons (Spec.lowercase haystack) i)
      by (rewrite lowercase_length; lia).
    cbn [find_from].
    rewrite <- (drop_cons (Spec.lowercase haystack) i)
      by (rewrite lowercase_length; lia).
    destruct (prefix_of needle (drop i (Spec.lowercase haystack)));
      [reflexivity|].
    replace (Z.of_nat i + 1) with (Z.of_nat (S i)) by lia.
    apply IH. lia.
Qed.

Lemma strcasestr_find :
  strcasestr sgn haystack needle
  = find_sub needle (Spec.lowercase haystack).
Proof.
  unfold strcasestr, strlen.
  rewrite !to_unsigned_small by lia.
  fold LH. fold LN. unfold LH at 2. rewrite Nat2Z.id.
  apply (outer_loop_find (String.length haystack) 0). fold LH. lia.
Qed.

End Loops.

Lemma find_from_some n : forall s i0 i,
  find_from n s i0 = Some i ->
  exists d, i = i0 + Z.of_nat d /\ (d < String.length s)%nat
            /\ prefix_of n (drop d s) = true
            /\ forall d', (d' < d)%nat -> prefix_of n (drop d' s) = false.
Proof.
  induction s as [|c s IH]; intros i0 i H; cbn [find_from] in H.
  - discriminate.
  - destruct (prefix_of n (String c s)) eqn:E.
    + injection H as <-. exists 0%nat. cbn [drop String.length].
      repeat split; try lia. assumption.
    + destruct (IH _ _ H) as (d & -> & Hd & Hp & Hfirst).
      exists (S d). cbn [drop String.length]. repeat split; try lia.
      * assumption.
      * intros [|d'] Hd'; cbn [drop]; [assumption | apply Hfirst; lia].
Qed.

Lemma find_from_none n : forall s i0,
  find_from n s i0 = None ->
  forall d, (d < String.length s)%nat -> prefix_of n (drop d s) = false.
Proof.
  induction s as [|c s IH]; intros i0 H d Hd; cbn [find_from] in H.
  - cbn in Hd. lia.
  - destruct (prefix_of n (String c s)) eqn:E; [discriminate|].
    destruct d as [|d]; cbn [drop]; [assumption|].
    apply (IH _ H). cbn in Hd. lia.
Qed.

Lemma prefix_occurs needle haystack d :
  (d <= String.length haystack)%nat ->
  (prefix_of needle (drop d (Spec.lowercase haystack)) = true
   <-> occurs_at needle haystack d).
Proof.
  intros Hd.
  rewrite prefix_of_spec, drop_length, lowercase_length. unfold occurs_at.
  split; intros [Hlen Hall].
  - split; [lia|]. intros t Ht. specialize (Hall t Ht).
    rewrite char_at_drop, char_at_lowercase in Hall.
    apply Ascii.eqb_eq. exact Hall.
  - split; [lia|]. intros t Ht.
    rewrite char_at_drop, char_at_lowercase.
    apply Ascii.eqb_eq. auto.
Qed.

(** A lower-cased character is no capital letter. *)
Lemma tolower_not_upper c :
  (lit "A" <=? code (Spec.tolower c)) && (code (Spec.tolower c) <=? lit "Z")
  = false.
Proof. each_ascii c; reflexivity. Qed.

Lemma has_upper_char n :
  has_upper n = true ->
  exists t, (t < String.length n)%nat
            /\ (lit "A" <=? code (char_at n t))
               && (code (char_at n t) <=? lit "Z") = true.
Proof.
  unfold char_at.
  induction n as [|c n IH]; cbn [has_upper]; [discriminate|].
  intros H. apply orb_true_iff in H. destruct H as [H|H].
  - exists 0%nat. cbn. split; [lia | exact H].
  - destruct (IH H) as (t & Ht & Hu). exists (S t). cbn. split; [lia|].
    exact Hu.
Qed.

Lemma upper_needle_nowhere needle haystack d :
  has_upper needle = true -> ~ occurs_at needle haystack d.
Proof.
  intros Hu [_ Hall]. destruct (has_upper_char _ Hu) as (t & Ht & Hc).
  rewrite (Hall t Ht), tolower_not_upper in Hc. discriminate.
Qed.

Lemma tolower_toupper c : Spec.tolower (Spec.toupper c) = Spec.tolower c.
Proof. each_ascii c; reflexivity. Qed.

Lemma lowercase_uppercase s :
  Spec.lowercase (Spec.uppercase s) = Spec.lowercase s.
Proof.
  induction s as [|c s IH]; cbn; [reflexivity|].
  rewrite tolower_toupper. f_equal. exact IH.
Qed.

Lemma tolower_idem c : Spec.tolower (Spec.tolower c) = Spec.tolower c.
Proof. each_ascii c; reflexivity. Qed.

Lemma lowercase_idem s :
  Spec.lowercase (Spec.lowercase s) = Spec.lowercase s.
Proof.
  induction s as [|c s IH]; cbn; [reflexivity|].
  rewrite tolower_idem. f_equal. exact IH.
Qed.

Lemma uppercase_length s :
  String.length (Spec.uppercase s) = String.length s.
Proof. induction s; cbn; congruence. Qed.

Lemma strcasestr_occurs (haystack needle : string) :
  Z.of_nat (String.length haystack) + Z.of_nat (String.length needle)
  < 2 ^ 32 ->
  match strcasestr sgn haystack needle with
  | Some i =>
      exists d, i = Z.of_nat d
                /\ (d < String.length haystack)%nat
                /\ occurs_at needle haystack d
                /\ forall d', (d' < d)%nat -> ~ occurs_at needle haystack d'
  | None =>
      forall d, (d < String.length haystack)%nat ->
                ~ occurs_at needle haystack d
  end.
Proof.
  intros Hfit. rewrite (strcasestr_find haystack needle Hfit).
  unfold find_sub.
  destruct (find_from needle (Spec.lowercase haystack) 0) as [i|] eqn:E.
  - destruct (find_from_some _ _ _ _ E) as (d & -> & Hd & Hp & Hfirst).
    rewrite lowercase_length in Hd.
    exists d. split; [lia|]. split; [assumption|]. split.
    + apply prefix_occurs; [lia | assumption].
    + intros d' Hd' Hocc. apply prefix_occurs in Hocc; [|lia].
      rewrite (Hfirst d' Hd') in Hocc. discriminate.
  - intros d Hd Hocc. apply prefix_occurs in Hocc; [|lia].
    rewrite (find_from_none _ _ _ E d) in Hocc; [discriminate|].
    rewrite lowercase_length. assumption.
Qed.

End SearchLaws.

(** X4. [strcasestr] returns the first offset at which the needle, compared
    as it is, occurs in the lower-cased haystack: the offset it returns is
    inside the haystack, the needle fits and occurs there and at no earlier
    offset, and when it returns the null pointer the needle occurs at no
    offset of the haystack. The two lengths together fit an [unsigned]. *)
Theorem strcasestr_first_occurrence (sgn : bool) (haystack needle : string) :
  Z.of_nat (String.length haystack) + Z.of_nat (String.length needle)
  < 2 ^ 32 ->
  match Trip.strcasestr sgn haystack needle with
  | Some i =>
      exists d, i = Z.of_nat d
                /\ (d < String.length haystack)%nat
                /\ Law.occurs_at needle haystack d
                /\ forall d', (d' < d)%nat -> ~ Law.occurs_at needle haystack d'
  | None =>
      forall d, (d < String.length haystack)%nat ->
                ~ Law.occurs_at needle haystack d
  end.
Proof. exact (strcasestr_occurs sgn haystack needle). Qed.

Lemma strcasestr_first_occurrence_witness :
  exists d, Some 2 = Some (Z.of_nat d)
            /\ (d < String.length "xxAbC")%nat
            /\ Law.occurs_at "abc" "xxAbC" d
            /\ forall d', (d' < d)%nat -> ~ Law.occurs_at "abc" "xxAbC" d'.
Proof.
  destruct (strcasestr_first_occurrence true "xxAbC" "abc" eq_refl)
    as (d & Hi & Hrest).
  exists d. split; [f_equal; exact Hi | exact Hrest].
Defined.

(** X5. A needle with a capital letter is never found, whatever the
    haystack: the haystack is lower-cased and the needle is not. *)
Theorem strcasestr_upper_needle (sgn : bool) (haystack needle : string) :
  Z.of_nat (String.length haystack) + Z.of_nat (String.length needle)
  < 2 ^ 32 ->
  Law.has_upper needle = true ->
  Trip.strcasestr sgn haystack needle = None.
Proof.
  intros Hfit Hu.
  pose proof (strcasestr_occurs sgn haystack needle Hfit) as H.
  destruct (Trip.strcasestr sgn haystack needle) as [i|]; [|reflexivity].
  destruct H as (d & _ & _ & Hocc & _).
  exfalso. exact (upper_needle_nowhere _ _ _ Hu Hocc).
Qed.

Lemma strcasestr_upper_needle_witness :
  Trip.strcasestr true "aaaaaaaaa." "A" = None.
Proof.
  apply (strcasestr_upper_needle true "aaaaaaaaa." "A"); reflexivity.
Defined.

(** X6. The case of the haystack does not matter: upper-casing it, or
    lower-casing it, leaves the result of the search as it was. *)
Theorem strcasestr_haystack_case (sgn : bool) (haystack needle : string) :
  Z.of_nat (String.length haystack) + Z.of_nat (String.length needle)
  < 2 ^ 32 ->
  Trip.strcasestr sgn (Spec.uppercase haystack) needle
  = Trip.strcasestr sgn haystack needle
  /\ Trip.strcasestr sgn (Spec.lowercase haystack) needle
     = Trip.strcasestr sgn haystack needle.
Proof.
  intros Hfit. split.
  - rewrite !strcasestr_find, lowercase_uppercase;
      rewrite ?uppercase_length; auto.
  - rewrite !strcasestr_find, lowercase_idem;
      rewrite ?lowercase_length; auto.
Qed.

Lemma strcasestr_haystack_case_witness :
  Trip.strcasestr true (Spec.uppercase "xxAbC") "abc"
  = Trip.strcasestr true "xxAbC" "abc"
  /\ Trip.strcasestr true (Spec.lowercase "xxAbC") "abc"
     = Trip.strcasestr true "xxAbC" "abc".
Proof. exact (strcasestr_haystack_case true "xxAbC" "abc" eq_refl). Defined.

(** ** The rate tracker, further *)

Section RateLaws.
Import Rate.

Lemma blend_between a t :
  Z.min a t <= blend a t <= Z.max a t.
Proof.
  rewrite blend_half. Z.div_mod_to_equations. lia.
Qed.

Lemma count_only_fits current_time st :
  Law.fits st -> Law.fits (snd (trip_frequency COUNT_ONLY current_time st)).
Proof.
  unfold Law.fits. intros [Ht Ha]. cbn [trip_frequency].
  destruct (negb (current_time =? time_at_last_call st));
    cbn [snd current_tally average].
  - pose proof (blend_between (average st) (current_tally st)). lia.
  - split; [|assumption]. unfold C.to_unsigned, C.UINT_WIDTH.
    apply Z.mod_pos_bound. reflexivity.
Qed.

End RateLaws.

(** X7. Tally fallback: while every call so far fell into one second, the
    average is still zero and [FETCH_DATA] returns the number of calls. *)
Theorem fetch_within_first_second (t tf : Z) (n : nat) :
  Z.of_nat n < 2 ^ 32 ->
  fst (Rate.trip_frequency Rate.FETCH_DATA tf
         (Rate.count_calls t n Rate.initial))
  = Z.of_nat n.
Proof.
  intros Hn. destruct (count_calls_initial t n Hn) as (Htally & Havg & _).
  cbn [Rate.trip_frequency fst]. rewrite Havg, Htally. reflexivity.
Qed.

Lemma fetch_within_first_second_witness :
  fst (Rate.trip_frequency Rate.FETCH_DATA 8
         (Rate.count_calls 7 100 Rate.initial))
  = 100.
Proof. exact (fetch_within_first_second 7 8 100 eq_refl). Defined.

(** X8. The counters never leave the range of [unsigned]: from a state where
    both fit, any call leaves both fitting and returns a value that fits; in
    particular the sum behind the new average never needs more than 32 bits. *)
Theorem tracker_fits (mode : Rate.avg_stats) (current_time : Z)
  (st : Rate.tracker) :
  Law.fits st ->
  Law.fits (snd (Rate.trip_frequency mode current_time st))
  /\ 0 <= fst (Rate.trip_frequency mode current_time st) < 2 ^ 32.
Proof.
  intros Hfit. destruct mode.
  - split; [apply count_only_fits; assumption|].
    cbn [Rate.trip_frequency].
    destruct (negb (current_time =? Rate.time_at_last_call st));
      cbn [fst]; lia.
  - split; [exact Hfit|]. destruct Hfit as [Ht Ha].
    cbn [Rate.trip_frequency fst].
    destruct (negb (Rate.average st =? 0)); assumption.
Qed.

Lemma tracker_fits_witness :
  Law.fits (snd (Rate.trip_frequency Rate.COUNT_ONLY 5 Rate.initial))
  /\ 0 <= fst (Rate.trip_frequency Rate.COUNT_ONLY 5 Rate.initial) < 2 ^ 32.
Proof.
  apply (tracker_fits Rate.COUNT_ONLY 5 Rate.initial).
  unfold Law.fits. cbn. lia.
Defined.

(** X9. The average moves only when a call sees another second than the last
    one, and then it lands between the old average and the tally of the
    second just ended; within a second it stays as it is. *)
Theorem average_moves_between (current_time : Z) (st : Rate.tracker) :
  let st' := snd (Rate.trip_frequency Rate.COUNT_ONLY current_time st) in
  (current_time = Rate.time_at_last_call st ->
   Rate.average st' = Rate.average st)
  /\ (current_time <> Rate.time_at_last_call st ->
      Z.min (Rate.average st) (Rate.current_tally st) <= Rate.average st'
      /\ Rate.average st'
         <= Z.max (Rate.average st) (Rate.current_tally st)).
Proof.
  cbn [Rate.trip_frequency]. split.
  - intros ->. rewrite Z.eqb_refl. reflexivity.
  - intros Hne.
    destruct (Z.eqb_spec current_time (Rate.time_at_last_call st));
      [contradiction|].
    cbn [negb snd Rate.average]. apply blend_between.
Qed.

Lemma average_moves_between_witness :
  Z.min 0 100 <= 50 /\ 50 <= Z.max 0 100.
Proof.
  refine (proj2 (average_moves_between 2
            {| Rate.current_tally := 100; Rate.average := 0;
               Rate.time_at_last_call := 1 |}) _).
  discriminate.
Defined.

(** X10. Once a call has been counted the rate reported is at least 1, as
    long as the tally has not wrapped around. *)
Theorem fetch_positive_after_count (t tf : Z) (st : Rate.tracker) :
  Law.fits st ->
  Rate.current_tally st < 2 ^ 32 - 1 ->
  1 <= fst (Rate.trip_frequency Rate.FETCH_DATA tf
              (snd (Rate.trip_frequency Rate.COUNT_ONLY t st))).
Proof.
  intros [Ht Ha] Hmax. cbn [Rate.trip_frequency].
  destruct (negb (t =? Rate.time_at_last_call st));
    cbn [snd fst Rate.average Rate.current_tally].
  - pose proof (blend_between (Rate.average st) (Rate.current_tally st)).
    destruct (Z.eqb_spec (Rate.blend (Rate.average st)
                            (Rate.current_tally st)) 0);
      cbn [negb]; lia.
  - unfold C.to_unsigned, C.UINT_WIDTH.
    rewrite Z.mod_small by lia.
    destruct (Z.eqb_spec (Rate.average st) 0); cbn [negb]; lia.
Qed.

Lemma fetch_positive_after_count_witness :
  1 <= fst (Rate.trip_frequency Rate.FETCH_DATA 9
              (snd (Rate.trip_frequency Rate.COUNT_ONLY 9 Rate.initial))).
Proof.
  apply (fetch_positive_after_count 9 9 Rate.initial).
  - unfold Law.fits. cbn. lia.
  - cbn. lia.
Defined.

(** ** The loop body *)

Section WorkerLaws.
Import Program Worker.
Variable strstr : string -> string -> option Z.
Variable DES_fcrypt : string -> string -> Buf.t.
Variable sgn : bool.

Lemma determine_match_tracker mode query trip password t st :
  snd (determine_match strstr sgn mode query trip password t st) = st.
Proof.
  unfold determine_match.
  match goal with |- context [if ?b then _ else _] => destruct b end;
    reflexivity.
Qed.

Lemma determine_match_benchmark query trip password t st :
  fst (determine_match strstr sgn NO_QUERY_MODE query trip password t st)
  = [].
Proof. reflexivity. Qed.

Lemma picks_not_nul seed :
  Forall (fun c => Ascii.eqb c zero = false) (map pick (Spec.draws seed 8)).
Proof.
  apply Forall_map. eapply Forall_impl; [|apply draws_range].
  intros r [Hr _]. apply pick_ok. exact Hr.
Qed.

Lemma password_string seed :
  Buf.to_string (map pick (Spec.draws seed 8) ++ [zero]) = Law.password_of seed.
Proof. apply to_string_picks, picks_not_nul. Qed.

Lemma password_of_length seed : String.length (Law.password_of seed) = 8%nat.
Proof.
  unfold Law.password_of. rewrite string_of_list_length, length_map.
  apply draws_length.
Qed.

Lemma password_of_list seed :
  list_ascii_of_string (Law.password_of seed)
  = map pick (Spec.draws seed 8).
Proof.
  unfold Law.password_of. apply list_ascii_of_string_of_list_ascii.
Qed.

Lemma precision_all s : forall n,
  (String.length s <= n)%nat -> precision n s = s.
Proof.
  induction s as [|c s IH]; intros [|n] H; cbn in *; try reflexivity;
    try lia.
  f_equal. apply IH. lia.
Qed.

(** One iteration, piece by piece. *)
Lemma iteration_unfold mode query t_match t_count st :
  let password := map pick (Spec.draws (seed st) 8) ++ [zero] in
  let trip :=
    Buf.to_string
      (Digest.truncate_tripcode
         (DES_fcrypt (Law.password_of (seed st))
            (Buf.to_string (Trip.derive_salt sgn password)))) in
  iteration strstr DES_fcrypt sgn mode query t_match t_count st
  = (fst (determine_match strstr sgn mode query trip (Law.password_of (seed st))
            t_match (tracker st)),
     {| seed := Spec.seed_after (seed st) 8;
        tracker :=
          snd (Rate.trip_frequency Rate.COUNT_ONLY t_count (tracker st)) |}).
Proof.
  cbv zeta. unfold iteration.
  rewrite generate_password_array by reflexivity.
  rewrite password_string.
  pose proof (determine_match_tracker mode query
    (Buf.to_string
       (Digest.truncate_tripcode
          (DES_fcrypt (Law.password_of (seed st))
             (Buf.to_string
                (Trip.derive_salt sgn
                   (map pick (Spec.draws (seed st) 8) ++ [zero]))))))
    (Law.password_of (seed st)) t_match (tracker st)) as Hfr.
  destruct (determine_match _ _ _ _ _ _ _ _) as [out tr].
  cbn [fst snd] in *. subst tr.
  destruct (Rate.trip_frequency Rate.COUNT_ONLY t_count (tracker st))
    as [r tr'].
  reflexivity.
Qed.

Lemma seed_after_add a : forall s b,
  Spec.seed_after (Spec.seed_after s a) b = Spec.seed_after s (a + b).
Proof.
  induction a as [|a IH]; intros s b; cbn [Spec.seed_after Nat.add];
    [reflexivity | apply IH].
Qed.

Lemma iterations_state mode query clock : forall st,
  snd (iterations strstr DES_fcrypt sgn mode query clock st)
  = {| seed := Spec.seed_after (seed st) (8 * List.length clock);
       tracker :=
         fold_left
           (fun tr t => snd (Rate.trip_frequency Rate.COUNT_ONLY (snd t) tr))
           clock (tracker st) |}.
Proof.
  induction clock as [|[tm tc] clock IH]; intros st.
  - cbn. destruct st; reflexivity.
  - cbn [iterations]. rewrite iteration_unfold. cbv zeta.
    specialize (IH {| seed := Spec.seed_after (seed st) 8;
                      tracker :=
                        snd (Rate.trip_frequency Rate.COUNT_ONLY tc
                               (tracker st)) |}).
    destruct (iterations _ _ _ _ _ _ _) as [out' st''].
    cbn [snd seed tracker fold_left] in *. rewrite IH.
    rewrite seed_after_add. f_equal. f_equal. cbn [List.length]. lia.
Qed.

Lemma iterations_benchmark query clock : forall st,
  fst (iterations strstr DES_fcrypt sgn NO_QUERY_MODE query clock st) = [].
Proof.
  induction clock as [|[tm tc] clock IH]; intros st; [reflexivity|].
  cbn [iterations]. rewrite iteration_unfold. cbv zeta.
  rewrite determine_match_benchmark.
  specialize (IH {| seed := Spec.seed_after (seed st) 8;
                    tracker :=
                      snd (Rate.trip_frequency Rate.COUNT_ONLY tc
                             (tracker st)) |}).
  destruct (iterations _ _ _ _ _ _ _) as [out' st''].
  cbn [fst] in *. rewrite IH. reflexivity.
Qed.

Lemma to_string_length_le b : forall n,
  (n < List.length b)%nat -> Buf.get b n = zero ->
  (String.length (Buf.to_string b) <= n)%nat.
Proof.
  unfold Buf.get.
  induction b as [|c b IH]; intros n Hn Hz; cbn in *; [lia|].
  destruct n as [|n].
  - subst c. cbn. lia.
  - destruct (Ascii.eqb c zero); cbn; [lia|].
    specialize (IH n ltac:(lia) Hz). lia.
Qed.

Lemma truncate_tripcode_length_le hash :
  List.length hash = 14%nat ->
  (String.length (Buf.to_string (Digest.truncate_tripcode hash)) <= 10)%nat.
Proof.
  intros Hlen.
  destruct hash as [|c0 [|c1 [|c2 [|c3 [|c4 [|c5 [|c6 [|c7 [|c8 [|c9
    [|c10 [|c11 [|c12 [|c13 [|c14 hash]]]]]]]]]]]]]]];
    try discriminate Hlen.
  apply to_string_length_le; [cbn; lia | reflexivity].
Qed.

Lemma determine_match_agnostic_upper query trip password t st :
  Z.of_nat (String.length trip) + Z.of_nat (String.length query) < 2 ^ 32 ->
  Law.has_upper query = true ->
  fst (determine_match strstr sgn CASE_AGNOSTIC query trip password t st)
  = [].
Proof.
  intros Hfit Hu. unfold determine_match.
  pose proof (strcasestr_occurs sgn trip query Hfit) as H.
  destruct (Trip.strcasestr sgn trip query) as [i|]; [|reflexivity].
  destruct H as (d & _ & _ & Hocc & _).
  exfalso. exact (upper_needle_nowhere _ _ _ Hu Hocc).
Qed.

Lemma iterations_agnostic_upper query clock :
  (forall p s, List.length (DES_fcrypt p s) = 14%nat) ->
  Z.of_nat (String.length query) < 2 ^ 32 - 14 ->
  Law.has_upper query = true ->
  forall st,
    fst (iterations strstr DES_fcrypt sgn CASE_AGNOSTIC query clock st) = [].
Proof.
  intros Hdes Hq Hu.
  induction clock as [|[tm tc] clock IH]; intros st; [reflexivity|].
  cbn [iterations]. rewrite iteration_unfold. cbv zeta.
  rewrite determine_match_agnostic_upper; [| |assumption].
  - specialize (IH {| seed := Spec.seed_after (seed st) 8;
                      tracker :=
                        snd (Rate.trip_frequency Rate.COUNT_ONLY tc
                               (tracker st)) |}).
    destruct (iterations _ _ _ _ _ _ _) as [out' st''].
    cbn [fst] in *. rewrite IH. reflexivity.
  - match goal with
    | |- context [Digest.truncate_tripcode ?h] =>
        pose proof (truncate_tripcode_length_le h (Hdes _ _))
    end.
    lia.
Qed.

Lemma iteration_line mode query t_match t_count st l :
  In l (fst (iteration strstr DES_fcrypt sgn mode query t_match t_count st)) ->
  line_pass l = Law.password_of (seed st)
  /\ line_trip l
     = Buf.to_string
         (Digest.truncate_tripcode
            (DES_fcrypt (Law.password_of (seed st))
               (Buf.to_string
                  (Trip.derive_salt sgn
                     (list_ascii_of_string (Law.password_of (seed st))
                      ++ [zero])))))
  /\ line_rate l
     = Condense.report
         (fst (Rate.trip_frequency Rate.FETCH_DATA t_match (tracker st)))
  /\ match mode with
     | CASE_AGNOSTIC => Trip.strcasestr sgn (line_trip l) query <> None
     | CASE_SENSITIVE => strstr (line_trip l) query <> None
     | _ => False
     end.
Proof.
  rewrite iteration_unfold. cbv zeta. cbn [fst].
  rewrite password_of_list.
  unfold determine_match.
  match goal with
  | |- In l (fst (if ?b then _ else _)) -> _ => destruct b eqn:Hfound
  end; cbn [fst]; [|intros []].
  destruct (Rate.trip_frequency Rate.FETCH_DATA t_match (tracker st))
    as [avg st'] eqn:Hfetch. cbn [fst In].
  intros [<-|[]]. cbn [line_pass line_trip line_rate].
  split; [apply precision_all; rewrite password_of_length; lia|].
  split; [reflexivity|]. split; [reflexivity|].
  destruct mode; try discriminate Hfound.
  - destruct (strstr _ query); [discriminate | discriminate Hfound].
  - destruct (Trip.strcasestr sgn _ query);
      [discriminate | discriminate Hfound].
Qed.

End WorkerLaws.

(** X11. In benchmark mode (no argument) no iteration prints a line,
    whatever the two library routines return. *)
Theorem benchmark_mode_is_silent
  (strstr : string -> string -> option Z)
  (DES_fcrypt : string -> string -> Buf.t) (sgn : bool)
  (query : string) (clock : list (Z * Z)) (st : Worker.iter_state) :
  fst (Worker.iterations strstr DES_fcrypt sgn Program.NO_QUERY_MODE
         query clock st) = [].
Proof. apply iterations_benchmark. Qed.

(** X12. What a run of iterations leaves behind does not depend on the mode,
    the query or the hash: the seed has advanced by eight draws per
    iteration, and the tracker has taken one [COUNT_ONLY] call per
    iteration, at that iteration's clock, and nothing else. *)
Theorem iterations_seed_and_tracker
  (strstr : string -> string -> option Z)
  (DES_fcrypt : string -> string -> Buf.t) (sgn : bool)
  (mode : Program.pmode) (query : string) (clock : list (Z * Z))
  (st : Worker.iter_state) :
  snd (Worker.iterations strstr DES_fcrypt sgn mode query clock st)
  = {| Worker.seed :=
         Spec.seed_after (Worker.seed st) (8 * List.length clock);
       Worker.tracker :=
         fold_left
           (fun tr t => snd (Rate.trip_frequency Rate.COUNT_ONLY (snd t) tr))
           clock (Worker.tracker st) |}.
Proof. apply iterations_state. Qed.

(** X13. With [-i] and a query that has a capital letter no iteration ever
    prints a line, whatever 14 bytes the hash leaves. *)
Theorem agnostic_upper_query_is_silent
  (strstr : string -> string -> option Z)
  (DES_fcrypt : string -> string -> Buf.t) (sgn : bool)
  (query : string) (clock : list (Z * Z)) (st : Worker.iter_state) :
  (forall p s, List.length (DES_fcrypt p s) = 14%nat) ->
  Z.of_nat (String.length query) < 2 ^ 32 - 14 ->
  Law.has_upper query = true ->
  fst (Worker.iterations strstr DES_fcrypt sgn Program.CASE_AGNOSTIC
         query clock st) = [].
Proof. intros. apply iterations_agnostic_upper; assumption. Qed.

Lemma agnostic_upper_query_is_silent_witness :
  fst (Worker.iterations (fun _ _ => None)
         (fun _ _ => list_ascii_of_string "ab0AAAAAAAAA." ++ [zero]) true
         Program.CASE_AGNOSTIC "A" [(1, 1); (1, 1)]
         {| Worker.seed := 25; Worker.tracker := Rate.initial |}) = [].
Proof.
  apply agnostic_upper_query_is_silent.
  - intros p s. reflexivity.
  - reflexivity.
  - reflexivity.
Defined.

(** X14. A line that an iteration prints is sound: the password shown is the
    one made from the worker's seed, the tripcode shown is the truncated
    hash of that password under the salt derived from it, the rate is the
    one the tracker holds, and the search of the mode in force found the
    query in the tripcode shown; in benchmark mode there is no line. *)
Theorem reported_line_is_sound
  (strstr : string -> string -> option Z)
  (DES_fcrypt : string -> string -> Buf.t) (sgn : bool)
  (mode : Program.pmode) (query : string) (t_match t_count : Z)
  (st : Worker.iter_state) (l : Worker.line) :
  In l (fst (Worker.iteration strstr DES_fcrypt sgn mode query
               t_match t_count st)) ->
  Worker.line_pass l = Law.password_of (Worker.seed st)
  /\ Worker.line_trip l
     = Buf.to_string
         (Digest.truncate_tripcode
            (DES_fcrypt (Law.password_of (Worker.seed st))
               (Buf.to_string
                  (Trip.derive_salt sgn
                     (list_ascii_of_string
                        (Law.password_of (Worker.seed st)) ++ [zero])))))
  /\ Worker.line_rate l
     = Condense.report
         (fst (Rate.trip_frequency Rate.FETCH_DATA t_match
                 (Worker.tracker st)))
  /\ match mode with
     | Program.CASE_AGNOSTIC =>
         Trip.strcasestr sgn (Worker.line_trip l) query <> None
     | Program.CASE_SENSITIVE => strstr (Worker.line_trip l) query <> None
     | _ => False
     end.
Proof. apply iteration_line. Qed.

Lemma reported_line_is_sound_witness :
  Worker.line_pass
    {| Worker.line_trip := "AAAAAAAAA.";
       Worker.line_pass := "=:l<egAm";
       Worker.line_rate := Condense.Raw 0 |}
  = Law.password_of 25.
Proof.
  refine (proj1 (reported_line_is_sound (fun _ _ => None)
            (fun _ _ => list_ascii_of_string "ab0AAAAAAAAA." ++ [zero]) true
            Program.CASE_AGNOSTIC "a" 1 1
            {| Worker.seed := 25; Worker.tracker := Rate.initial |} _ _)).
  left. vm_compute. reflexivity.
Defined.

(** ** [main], further *)

Section MainLaws.
Import Program.
Variable sgn : bool.
Variable argv : list string.
Variable NUM_CORES : nat.

Lemma parse_args_exit_status status err :
  parse_args sgn argv = Some (Exit status err) -> status = 1.
Proof.
  unfold parse_args.
  repeat match goal with
         | |- context [match ?x with _ => _ end] => destruct x
         end;
    congruence.
Qed.

(** [main] goes past its argument handling only with what [parse_args]
    decided. *)
Lemma proceed_recorded s :
  reachable sgn argv NUM_CORES s ->
  match pc s with
  | AtRunState | AtSignal | InPool | AtSummary | Exited 0 =>
      parse_args sgn argv = Some (Proceed (mode s))
  | Exited _ => exists err, parse_args sgn argv = Some (Exit 1 err)
  | _ => True
  end.
Proof.
  revert s. apply reachable_ind'; [exact I|].
  intros a s s' _ IH Hstep.
  inversion Hstep; subst; cbn [pc mode] in *;
    repeat match goal with
           | H : pc _ = _ |- _ => rewrite H in *
           end;
    try assumption; try exact I.
  match goal with
  | H : parse_args _ _ = Some (Exit _ _) |- _ =>
      pose proof (parse_args_exit_status _ _ H); subst; eauto
  end.
Qed.

Lemma parse_args_proceed m :
  (forall a, In a argv -> Z.of_nat (String.length a) < 2 ^ 32) ->
  parse_args sgn argv = Some (Proceed m) ->
  (m = NO_QUERY_MODE /\ List.length argv = 1%nat)
  \/ ((m = CASE_SENSITIVE \/ m = CASE_AGNOSTIC)
      /\ exists q, arg argv (mode_index m) = Some q /\ acceptable q).
Proof.
  intros Hlen. unfold parse_args.
  destruct (Z.eqb_spec (Z.of_nat (List.length argv)) 1) as [E|E].
  { intros H. injection H as <-. left. split; [reflexivity | lia]. }
  destruct (arg argv 1) as [a1|]; [|discriminate].
  destruct (String.eqb a1 "-h"); [discriminate|].
  set (m' := if String.eqb a1 "-i" then CASE_AGNOSTIC else CASE_SENSITIVE).
  destruct (arg argv (mode_index m')) as [q|] eqn:Hq.
  - pose proof (validate_query_cases sgn q) as Hc.
    pose proof (validate_query_accepts_iff sgn q) as Hiff.
    destruct (Query.validate_query sgn (Some q)) as [ok err].
    cbn [fst] in *.
    destruct (Z.eqb_spec ok 0); [discriminate|].
    intros H. injection H as <-. right. split.
    + unfold m'. destruct (String.eqb a1 "-i"); auto.
    + exists q. split; [assumption|]. apply Hiff; [|lia].
      apply Hlen. unfold arg in Hq. eapply nth_error_In. exact Hq.
  - cbn. discriminate.
Qed.

Lemma set_worker_length ws k w :
  (k < List.length ws)%nat ->
  List.length (set_worker ws k w) = List.length ws.
Proof.
  intros Hk. unfold set_worker.
  rewrite length_app, length_firstn. cbn [List.length].
  rewrite length_skipn. lia.
Qed.

(** While the pool runs: the handler is installed, there are [NUM_CORES]
    workers, and a worker has left its loop only if [run_state] is 0. *)
Lemma pool_invariant_reachable s :
  reachable sgn argv NUM_CORES s -> Law.pool_invariant NUM_CORES s.
Proof.
  revert s. apply reachable_ind'; [exact I|].
  intros a s s' Hr IH Hstep.
  pose proof (invariant_reachable _ _ _ _ Hr) as (_ & Hpre & _ & _).
  pose proof (proceed_recorded s Hr) as Hrec.
  unfold Law.pool_invariant, started in *.
  inversion Hstep; subst; cbn [pc workers run_state handler] in *;
    repeat match goal with
           | H : pc _ = _ |- _ => rewrite H in *
           end;
    try exact I.
  - (* exit from the argument handling *)
    destruct (Hpre eq_refl) as [Hrs0 Hh0].
    match goal with
    | H : parse_args _ _ = Some (Exit _ _) |- _ =>
        pose proof (parse_args_exit_status _ _ H); subst; auto
    end.
  - (* [signal] and the start of the pool *)
    split; [reflexivity|]. split; [apply repeat_length|].
    intros k Hk. apply nth_error_In, repeat_spec in Hk. discriminate.
  - (* a worker finds the flag set *)
    destruct IH as (Hh & Hlen & Hdone).
    assert (Hk : (k < List.length (workers s))%nat)
      by (apply nth_error_Some; congruence).
    split; [assumption|]. split; [rewrite set_worker_length; assumption|].
    intros j Hj. destruct (Nat.eq_dec j k) as [->|Hne].
    + erewrite set_worker_same in Hj by eassumption. discriminate.
    + erewrite set_worker_other in Hj by eassumption. eauto.
  - (* a worker finds the flag clear *)
    destruct IH as (Hh & Hlen & Hdone).
    assert (Hk : (k < List.length (workers s))%nat)
      by (apply nth_error_Some; congruence).
    split; [assumption|]. split; [rewrite set_worker_length; assumption|].
    intros; assumption.
  - (* a worker ends an iteration *)
    destruct IH as (Hh & Hlen & Hdone).
    assert (Hk : (k < List.length (workers s))%nat)
      by (apply nth_error_Some; congruence).
    split; [assumption|]. split; [rewrite set_worker_length; assumption|].
    intros j Hj. destruct (Nat.eq_dec j k) as [->|Hne].
    + erewrite set_worker_same in Hj by eassumption. discriminate.
    + erewrite set_worker_other in Hj by eassumption. eauto.
  - (* the end of the parallel region *)
    destruct IH as (Hh & Hlen & Hdone).
    split; [assumption|]. intros Hpos.
    destruct (workers s) as [|w ws] eqn:Hws; [cbn in Hlen; lia|].
    apply (Hdone 0%nat). cbn.
    match goal with H : Forall _ (_ :: _) |- _ =>
      inversion H; subst; reflexivity end.
  - (* the return of line 520 *)
    assumption.
  - (* the handler *)
    destruct (pc s) as [| | | | |status|]; try exact I.
    + destruct IH as (Hh & Hlen & Hdone). auto.
    + destruct IH as (Hh & Hrs). auto.
    + exfalso. match goal with H : forall st, _ <> _ |- _ =>
        eapply H; reflexivity end.
Qed.

Lemma exited_status s :
  reachable sgn argv NUM_CORES s ->
  forall status, pc s = Exited status -> status = 0 \/ status = 1.
Proof.
  revert s.
  apply (reachable_ind' sgn argv NUM_CORES
           (fun s => forall status,
              pc s = Exited status -> status = 0 \/ status = 1));
    [discriminate|].
  intros a s s' Hr IH Hstep status Hpc.
  inversion Hstep; subst; cbn [pc] in Hpc; try discriminate;
    try (apply IH; congruence).
  all: injection Hpc as <-.
  all: try (right; eapply parse_args_exit_status; eassumption).
  all: try (left; reflexivity).
Qed.

Lemma set_worker_app done w rest w' :
  set_worker (done ++ w :: rest) (List.length done) w' = done ++ w' :: rest.
Proof.
  unfold set_worker.
  rewrite firstn_app, Nat.sub_diag, firstn_all, firstn_O, app_nil_r.
  rewrite skipn_app, skipn_all2 by lia.
  replace (S (List.length done) - List.length done)%nat with 1%nat by lia.
  reflexivity.
Qed.

Lemma nth_error_middle (done : list worker_pc) w rest :
  nth_error (done ++ w :: rest) (List.length done) = Some w.
Proof.
  rewrite nth_error_app2 by lia. rewrite Nat.sub_diag. reflexivity.
Qed.

(** With the flag clear every worker can be taken out of its loop, in at
    most two turns each. *)
Lemma pool_drains h m : forall rest done,
  exists l,
    steps sgn argv NUM_CORES
      {| pc := InPool; run_state := 0; handler := h; mode := m;
         workers := done ++ rest |}
      l
      {| pc := InPool; run_state := 0; handler := h; mode := m;
         workers := done ++ repeat Done (List.length rest) |}
    /\ (List.length l <= 2 * List.length rest)%nat
    /\ ~ In Interrupt l.
Proof.
  induction rest as [|w rest IH]; intros done.
  - exists []. cbn. split; [constructor|]. split; [lia | tauto].
  - destruct (IH (done ++ [Done])) as (l & Hl & Hlen & Hno).
    rewrite <- !app_assoc in Hl. cbn [app] in Hl.
    cbn [repeat List.length].
    pose (k := List.length done).
    assert (Hstop :
      step sgn argv NUM_CORES (Worker k)
        {| pc := InPool; run_state := 0; handler := h; mode := m;
           workers := done ++ LoopTop :: rest |}
        {| pc := InPool; run_state := 0; handler := h; mode := m;
           workers := done ++ Done :: rest |}).
    { rewrite <- (set_worker_app done LoopTop rest Done).
      apply (step_check_stop sgn argv NUM_CORES
               {| pc := InPool; run_state := 0; handler := h; mode := m;
                  workers := done ++ LoopTop :: rest |} k);
        [reflexivity | apply nth_error_middle | reflexivity]. }
    assert (Hbody :
      step sgn argv NUM_CORES (Worker k)
        {| pc := InPool; run_state := 0; handler := h; mode := m;
           workers := done ++ InBody :: rest |}
        {| pc := InPool; run_state := 0; handler := h; mode := m;
           workers := done ++ LoopTop :: rest |}).
    { rewrite <- (set_worker_app done InBody rest LoopTop).
      apply (step_body sgn argv NUM_CORES
               {| pc := InPool; run_state := 0; handler := h; mode := m;
                  workers := done ++ InBody :: rest |} k);
        [reflexivity | apply nth_error_middle]. }
    destruct w.
    + exists (Worker k :: l). split; [|split].
      * econstructor; [exact Hstop | exact Hl].
      * cbn [List.length]. lia.
      * intros [E|Hin]; [discriminate | tauto].
    + exists (Worker k :: Worker k :: l). split; [|split].
      * econstructor; [exact Hbody|].
        econstructor; [exact Hstop | exact Hl].
      * cbn [List.length]. lia.
      * intros [E|[E|Hin]]; [discriminate | discriminate | tauto].
    + exists l. split; [exact Hl|]. split; [cbn [List.length]; lia|].
      assumption.
Qed.

Lemma interrupted_pool_exits s :
  pc s = InPool -> run_state s = 0 ->
  exists l s',
    steps sgn argv NUM_CORES s l s'
    /\ pc s' = Exited 0
    /\ (List.length l <= 2 * List.length (workers s) + 2)%nat
    /\ ~ In Interrupt l.
Proof.
  destruct s as [p r h m ws]. cbn [pc run_state workers].
  intros -> ->.
  destruct (pool_drains h m ws []) as (l & Hl & Hlen & Hno).
  cbn [app] in Hl.
  exists (l ++ [Main; Main]).
  exists {| pc := Exited 0; run_state := 0; handler := h; mode := m;
            workers := [] |}.
  split; [|split; [reflexivity|split]].
  - eapply steps_app; [exact Hl|].
    econstructor.
    + apply (step_join sgn argv NUM_CORES
               {| pc := InPool; run_state := 0; handler := h; mode := m;
                  workers := repeat Done (List.length ws) |});
        [reflexivity|].
      cbn [workers]. apply Forall_forall. intros w Hw.
      apply repeat_spec in Hw. exact Hw.
    + econstructor; [|constructor].
      apply (step_return sgn argv NUM_CORES
               {| pc := AtSummary; run_state := 0; handler := h; mode := m;
                  workers := [] |}).
      reflexivity.
  - rewrite length_app. cbn [List.length]. lia.
  - intros Hin. apply in_app_or in Hin. destruct Hin as [Hin|Hin];
      [tauto|].
    destruct Hin as [E|[E|[]]]; discriminate.
Qed.

End MainLaws.

(** X15. The pool only ever runs with what [validate_query] let through: in
    a state where [main] is in the parallel region, either there was no
    argument and the mode is the benchmark one, or the mode is one of the
    two query modes and [argv[mode]] is a string that meets the rules for
    queries. The arguments are of lengths that fit an [unsigned]. *)
Theorem pool_runs_on_valid_query
  (sgn : bool) (argv : list string) (NUM_CORES : nat) (s : Program.state) :
  (forall a, In a argv -> Z.of_nat (String.length a) < 2 ^ 32) ->
  Program.reachable sgn argv NUM_CORES s ->
  Program.pc s = Program.InPool ->
  (Program.mode s = Program.NO_QUERY_MODE /\ List.length argv = 1%nat)
  \/ ((Program.mode s = Program.CASE_SENSITIVE
       \/ Program.mode s = Program.CASE_AGNOSTIC)
      /\ exists q,
           Program.arg argv (Program.mode_index (Program.mode s)) = Some q
           /\ acceptable q).
Proof.
  intros Hlen Hr Hpc.
  pose proof (proceed_recorded sgn argv NUM_CORES s Hr) as H.
  rewrite Hpc in H.
  exact (parse_args_proceed sgn argv _ Hlen H).
Qed.

Lemma pool_runs_on_valid_query_witness :
  let argv := ["tripforce"; "-i"; "abc"]%string in
  (Program.CASE_AGNOSTIC = Program.NO_QUERY_MODE /\ List.length argv = 1%nat)
  \/ ((Program.CASE_AGNOSTIC = Program.CASE_SENSITIVE
       \/ Program.CASE_AGNOSTIC = Program.CASE_AGNOSTIC)
      /\ exists q,
           Program.arg argv (Program.mode_index Program.CASE_AGNOSTIC)
           = Some q
           /\ acceptable q).
Proof.
  intros argv.
  refine (pool_runs_on_valid_query true argv 1
            {| Program.pc := Program.InPool; Program.run_state := 1;
               Program.handler := true;
               Program.mode := Program.CASE_AGNOSTIC;
               Program.workers := [Program.LoopTop] |} _ _ eq_refl).
  - intros a [<-|[<-|[<-|[]]]]; vm_compute; reflexivity.
  - exists [Program.Main; Program.Main; Program.Main].
    eapply Program.steps_cons;
      [apply (Program.step_proceed true argv 1 Program.boot
                Program.CASE_AGNOSTIC eq_refl eq_refl)|].
    eapply Program.steps_cons;
      [apply Program.step_run_state; reflexivity|].
    eapply Program.steps_cons;
      [apply Program.step_signal; reflexivity|].
    apply Program.steps_nil.
Defined.

(** X16. What the exit status tells: [main] returns 1 only out of its
    argument handling, with [run_state] never set and no handler installed,
    and it returns 0 only with the handler installed and, when there is at
    least one worker, with [run_state] cleared, that is after an interrupt. *)
Theorem exit_status_meaning
  (sgn : bool) (argv : list string) (NUM_CORES : nat) (s : Program.state)
  (status : Z) :
  Program.reachable sgn argv NUM_CORES s ->
  Program.pc s = Program.Exited status ->
  (status = 1 /\ Program.run_state s = 0 /\ Program.handler s = false
   /\ exists err,
        Program.parse_args sgn argv = Some (Program.Exit 1 err))
  \/ (status = 0 /\ Program.handler s = true
      /\ ((0 < NUM_CORES)%nat -> Program.run_state s = 0)).
Proof.
  intros Hr Hpc.
  pose proof (pool_invariant_reachable sgn argv NUM_CORES s Hr) as Hp.
  pose proof (proceed_recorded sgn argv NUM_CORES s Hr) as Hrec.
  pose proof (exited_status sgn argv NUM_CORES s Hr status Hpc) as Hst.
  unfold Law.pool_invariant in Hp. rewrite Hpc in Hp, Hrec.
  destruct Hst as [-> | ->].
  - right. destruct Hp. auto.
  - left. destruct Hp as [H0 Hh]. auto.
Qed.

Lemma exit_status_meaning_witness :
  (1 = 1 /\ 0 = 0 /\ false = false
   /\ exists err,
        Program.parse_args true ["tripforce"; "-i"]%string
        = Some (Program.Exit 1 err))
  \/ (1 = 0 /\ false = true /\ ((0 < 1)%nat -> 0 = 0)).
Proof.
  refine (exit_status_meaning true ["tripforce"; "-i"]%string 1
            {| Program.pc := Program.Exited 1; Program.run_state := 0;
               Program.handler := false;
               Program.mode := Program.NO_QUERY_MODE;
               Program.workers := [] |} 1 _ eq_refl).
  exists [Program.Main].
  eapply Program.steps_cons;
    [apply (Program.step_exit1 true ["tripforce"; "-i"]%string 1
              Program.boot 1 [Query.ERROR_NO_QUERY] eq_refl eq_refl)|].
  apply Program.steps_nil.
Defined.

(** X17. After the interrupt the program can always finish: from a state in
    the parallel region with [run_state] cleared there is a run, without
    further interrupts and of at most two turns per worker and two steps of
    [main], that ends with [main] returning 0. *)
Theorem interrupted_pool_can_exit
  (sgn : bool) (argv : list string) (NUM_CORES : nat) (s : Program.state) :
  Program.pc s = Program.InPool ->
  Program.run_state s = 0 ->
  exists l s',
    Program.steps sgn argv NUM_CORES s l s'
    /\ Program.pc s' = Program.Exited 0
    /\ (List.length l <= 2 * List.length (Program.workers s) + 2)%nat
    /\ ~ In Program.Interrupt l.
Proof. apply interrupted_pool_exits. Qed.

Lemma interrupted_pool_can_exit_witness :
  exists l s',
    Program.steps true ["tripforce"; "a"]%string 2
      {| Program.pc := Program.InPool; Program.run_state := 0;
         Program.handler := true; Program.mode := Program.CASE_SENSITIVE;
         Program.workers := [Program.InBody; Program.LoopTop] |} l s'
    /\ Program.pc s' = Program.Exited 0
    /\ (List.length l <= 2 * 2 + 2)%nat
    /\ ~ In Program.Interrupt l.
Proof.
  exact (interrupted_pool_can_exit true ["tripforce"; "a"]%string 2
           {| Program.pc := Program.InPool; Program.run_state := 0;
              Program.handler := true; Program.mode := Program.CASE_SENSITIVE;
              Program.workers := [Program.InBody; Program.LoopTop] |}
           eq_refl eq_refl).
Defined.
(** ** What [validate_query] writes *)

Section ReportFacts.
Import Query.
Variable sgn : bool.

Lemma range_loop_false q : forall n i,
  range_loop sgn q i n = false ->
  exists j, (i <= j < i + n)%nat /\ in_range sgn (C.char_at q j) = false.
Proof.
  induction n as [|n IH]; intros i; simpl; [discriminate|].
  destruct (in_range sgn (C.char_at q i)) eqn:E.
  - intros H. destruct (IH _ H) as (j & Hj & Hf).
    exists j. split; [lia | exact Hf].
  - intros _. exists i. split; [lia | exact E].
Qed.

Lemma all_in_alphabet q :
  range_loop sgn q 0 (String.length q) = true <->
  (forall i c, String.get i q = Some c -> In c alphabet).
Proof.
  rewrite range_loop_true. split.
  - intros H i c Hget. apply memb_In. rewrite <- (in_range_alphabet sgn).
    rewrite <- (char_at_get _ _ _ Hget). apply H.
    apply get_some_lt in Hget. lia.
  - intros H j Hj. rewrite in_range_alphabet. apply memb_In.
    apply (H j). apply get_lt. lia.
Qed.

Lemma some_outside_alphabet q :
  range_loop sgn q 0 (String.length q) = false <->
  (exists i c, String.get i q = Some c /\ ~ In c alphabet).
Proof.
  split.
  - intros H. destruct (range_loop_false _ _ _ H) as (j & Hj & Hf).
    exists j, (C.char_at q j). split; [apply get_lt; lia|].
    rewrite <- memb_In, <- (in_range_alphabet sgn), Hf. discriminate.
  - intros (i & c & Hget & Hout).
    destruct (range_loop sgn q 0 (String.length q)) eqn:E; [|reflexivity].
    rewrite all_in_alphabet in E. elim Hout. eauto.
Qed.

Lemma validate_query_messages q :
  Z.of_nat (String.length q) < 2 ^ 32 ->
  let r := validate_query sgn (Some q) in
  (fst r = 1 /\ snd r = []
   \/ fst r = 0 /\ exists e, snd r = [e])
  /\ (snd r = [ERROR_QUERY_LENGTH] <-> (10 < String.length q)%nat)
  /\ (snd r = [ERROR_QUERY_INVALID] <->
      (String.length q <= 10)%nat
      /\ exists i c, String.get i q = Some c /\ ~ In c alphabet)
  /\ (snd r = [ERROR_QUERY_TENTH_CHAR] <->
      String.length q = 10%nat
      /\ (forall i c, String.get i q = Some c -> In c alphabet)
      /\ ~ In (C.char_at q 9) tenth_alphabet).
Proof.
  intros Hlen r. subst r. unfold validate_query.
  rewrite tenth_loop_memb, (strlen_small q Hlen). unfold QUERY_MAX_LENGTH.
  rewrite Nat2Z.id.
  pose proof (all_in_alphabet q) as Hall.
  pose proof (some_outside_alphabet q) as Hsome.
  destruct (Z.ltb_spec 10 (Z.of_nat (String.length q))) as [Hlong|Hshort].
  { cbn [fst snd]. split; [right; eauto|].
    split; [split; [lia | reflexivity]|].
    split; (split; [discriminate | lia]). }
  destruct (range_loop sgn q 0 (String.length q)) eqn:Hrange; cbn [negb].
  - assert (Hin : forall i c, String.get i q = Some c -> In c alphabet)
      by (apply Hall; reflexivity).
    assert (Hno : ~ exists i c, String.get i q = Some c /\ ~ In c alphabet)
      by (intros (i & c & Hg & Ho); eauto).
    destruct (Z.eqb_spec (Z.of_nat (String.length q)) 10) as [Hten|Hnot];
      cbn [andb].
    + replace (Z.to_nat (Z.of_nat (String.length q) - 1)) with 9%nat by lia.
      change (list_ascii_of_string tenth_char) with tenth_alphabet.
      destruct (memb (C.char_at q 9) tenth_alphabet) eqn:Hm;
        cbn [negb fst snd].
      * apply memb_In in Hm.
        split; [left; auto|].
        split; [split; [discriminate | lia]|].
        split; [split; [discriminate | tauto]|].
        split; [discriminate | tauto].
      * assert (~ In (C.char_at q 9) tenth_alphabet)
          by (rewrite <- memb_In, Hm; discriminate).
        split; [right; eauto|].
        split; [split; [discriminate | lia]|].
        split; [split; [discriminate | tauto]|].
        split; [intros _; repeat split; [lia | assumption | assumption]
               | reflexivity].
    + cbn [fst snd]. split; [left; auto|].
      split; [split; [discriminate | lia]|].
      split; [split; [discriminate | tauto]|].
      split; [discriminate | lia].
  - assert (Hex : exists i c, String.get i q = Some c /\ ~ In c alphabet)
      by (apply Hsome; reflexivity).
    assert (Hno : ~ forall i c, String.get i q = Some c -> In c alphabet)
      by (intros Hin; destruct Hex as (i & c & Hg & Ho); eauto).
    cbn [fst snd]. split; [right; eauto|].
    split; [split; [discriminate | lia]|].
    split; [split; [intros _; split; [lia | assumption] | reflexivity]|].
    split; [discriminate | tauto].
Qed.

End ReportFacts.

(** X18. A query is answered with the status 1 and no message, or with the
    status 0 and exactly one message, and the message names the first check
    that fails, in the order length, characters, tenth character: the length
    message for more than ten characters, the character message for at most
    ten characters one of which is outside [./0-9A-Za-z], the
    tenth-character message for ten characters of the alphabet that end
    outside [.26AEIMQUYcgkosw]. The signedness of [char] plays no part. *)
Theorem validate_query_reports_first_failure (sgn : bool) (q : string) :
  Z.of_nat (String.length q) < 2 ^ 32 ->
  let r := Query.validate_query sgn (Some q) in
  (fst r = 1 /\ snd r = []
   \/ fst r = 0 /\ exists e, snd r = [e])
  /\ (snd r = [Query.ERROR_QUERY_LENGTH] <-> (10 < String.length q)%nat)
  /\ (snd r = [Query.ERROR_QUERY_INVALID] <->
      (String.length q <= 10)%nat
      /\ exists i c, String.get i q = Some c /\ ~ In c alphabet)
  /\ (snd r = [Query.ERROR_QUERY_TENTH_CHAR] <->
      String.length q = 10%nat
      /\ (forall i c, String.get i q = Some c -> In c alphabet)
      /\ ~ In (C.char_at q 9) tenth_alphabet).
Proof. apply validate_query_messages. Qed.

Lemma validate_query_reports_first_failure_witness :
  let r := Query.validate_query true (Some "abc!defghijk"%string) in
  (fst r = 1 /\ snd r = []
   \/ fst r = 0 /\ exists e, snd r = [e])
  /\ (snd r = [Query.ERROR_QUERY_LENGTH] <->
      (10 < String.length "abc!defghijk")%nat)
  /\ (snd r = [Query.ERROR_QUERY_INVALID] <->
      (String.length "abc!defghijk" <= 10)%nat
      /\ exists i c, String.get i "abc!defghijk"%string = Some c
                     /\ ~ In c alphabet)
  /\ (snd r = [Query.ERROR_QUERY_TENTH_CHAR] <->
      String.length "abc!defghijk" = 10%nat
      /\ (forall i c, String.get i "abc!defghijk"%string = Some c
                      -> In c alphabet)
      /\ ~ In (C.char_at "abc!defghijk" 9) tenth_alphabet).
Proof.
  apply (validate_query_reports_first_failure true "abc!defghijk"%string).
  vm_compute. reflexivity.
Defined.

(** ** The salt and the alphabet of [DES_fcrypt] *)

Section SaltAlphabet.
Import C Trip.
Variable sgn : bool.

Lemma sanitized_at_iff c :
  In (Spec.shift sgn (Spec.clamp sgn c)) alphabet <-> c <> ":"%char.
Proof.
  split.
  - intros Hin ->. apply memb_In in Hin.
    unfold Spec.shift, Spec.clamp in Hin. destruct sgn; discriminate Hin.
  - intros Hne. apply memb_In, sanitized_alphabet.
    destruct (Ascii.eqb_spec c ":"); [contradiction | reflexivity].
Qed.

Lemma derive_salt_alphabet password :
  let salt := derive_salt sgn password in
  (forall i, (i < 4)%nat -> In (Buf.get salt i) ("@"%char :: alphabet))
  /\ ((forall i, (i < 4)%nat -> In (Buf.get salt i) alphabet)
      <-> Buf.get password 1 <> ":"%char /\ Buf.get password 2 <> ":"%char).
Proof.
  intros salt. subst salt. rewrite derive_salt_array.
  assert (HH : In "H"%char alphabet) by (apply memb_In; reflexivity).
  assert (Hd : In "."%char alphabet) by (apply memb_In; reflexivity).
  split.
  - intros i Hi.
    destruct i as [|[|[|[|i]]]]; try lia; cbn [Buf.get nth].
    + apply memb_In, sanitized_alphabet_or_at.
    + apply memb_In, sanitized_alphabet_or_at.
    + right. exact HH.
    + right. exact Hd.
  - rewrite <- !sanitized_at_iff. split.
    + intros H. split; [apply (H 0%nat) | apply (H 1%nat)]; lia.
    + intros [H1 H2] i Hi.
      destruct i as [|[|[|[|i]]]]; try lia; cbn [Buf.get nth]; assumption.
Qed.

End SaltAlphabet.

(** X19. The four characters of every salt are in [./0-9A-Za-z] or are
    ['@'], and all four are in the alphabet exactly when neither the second
    nor the third character of the password is the colon: the colon is the
    one character that the two passes leave outside the alphabet. *)
Theorem salt_in_alphabet_iff_no_colon (sgn : bool) (password : Buf.t) :
  let salt := Trip.derive_salt sgn password in
  (forall i, (i < 4)%nat -> In (Buf.get salt i) ("@"%char :: alphabet))
  /\ ((forall i, (i < 4)%nat -> In (Buf.get salt i) alphabet)
      <-> Buf.get password 1 <> ":"%char /\ Buf.get password 2 <> ":"%char).
Proof. apply derive_salt_alphabet. Qed.

(** ** The value returned for a rate below 1000 *)

(** X20. For a rate below 1000 the formatter leaves the empty prefix and
    divides by the first magnitude, which is [0.0]: the [float] it returns
    is the positive infinity, or the NaN of [0.0f / 0.0f] for the rate 0.
    The reporters never print it, they test the prefix first. *)
Theorem trip_rate_condense_below_1000 (rate : Z) (prefix : ascii) :
  0 <= rate < 1000 ->
  Condense.trip_rate_condense rate prefix
  = (if rate =? 0 then S754_nan else S754_infinity false, zero)
  /\ Condense.report rate = Condense.Raw rate.
Proof.
  intros Hrate.
  assert (Hcond : forall p,
            Condense.trip_rate_condense rate p
            = (if rate =? 0 then S754_nan else S754_infinity false, zero)).
  { intros p. rewrite condense_loop_scale by lia.
    unfold Spec.scale.
    destruct (Z.ltb_spec rate 1000) as [_|]; [|lia].
    cbn [nth Condense.trip_prefix].
    change (Condense.magnitude 0) with (S754_zero false).
    destruct (Z.eqb_spec rate 0) as [->|Hne]; [reflexivity|].
    destruct (of_Z_sound rate) as (m & e & -> & _); [lia|].
    reflexivity. }
  split; [apply Hcond|].
  unfold Condense.report. rewrite Hcond. reflexivity.
Qed.

Lemma trip_rate_condense_below_1000_witness :
  Condense.trip_rate_condense 999 "x"
  = (if 999 =? 0 then S754_nan else S754_infinity false, zero)
  /\ Condense.report 999 = Condense.Raw 999.
Proof.
  apply (trip_rate_condense_below_1000 999 "x"). lia.
Defined.
